(** * The line-stream shufflers of [pipeline/common/datasets.py]

    A shallow embedding of [shuffle_with_max_lines] and
    [shuffle_in_temp_files], and the properties their specification states
    about them.

    Conventions of the embedding:
    - a Python [str] is the list of its code points ([N]); a Python [int] is
      a [Z], except for counters that only count up from zero and index
      things ([chunk_index], [bucket_count]), which are [nat];
    - a line stream (an [Iterator[str]]) is the list of the lines it still
      has to yield; a loop over it returns what it has not consumed;
    - a raised exception is the [Raise] case of [result];
    - the directory [chunk_dir] is a finite map from the index [n] of
      [chunk.n] to the text of that file; the platform is POSIX with a UTF-8
      locale, so writing a text file stores the string as it is;
    - the output sink is the list of the strings written to it;
    - [random.Random] is an interface ([SeededRng]); [random.shuffle] is the
      Fisher-Yates loop of CPython's [random] module over that interface;
    - the binary64 numbers of the sampling probability are idealised as exact
      rationals ([Q]); no theorem below depends on the value of a draw other
      than through [0 <= random() < 1]. *)

From Stdlib Require Import ZArith QArith Lia.
From stdpp Require Import gmap list strings pretty.

Local Close Scope Q_scope.
Local Open Scope Z_scope.

(** ** Exceptions *)

Inductive exn :=
  | ZeroDivisionError
  | IndexError
  | UnicodeEncodeError
  | FileNotFoundError.

Inductive result (A : Type) :=
  | Ok (a : A)
  | Raise (e : exn).
Arguments Ok {A} a.
Arguments Raise {A} e.

Global Instance result_ret : MRet result := fun A a => Ok a.

Global Instance result_bind : MBind result := fun A B k r =>
  match r with
  | Ok a => k a
  | Raise e => Raise e
  end.

Definition is_ok {A} (r : result A) : bool :=
  match r with Ok _ => true | Raise _ => false end.

(** ** Strings *)

Abbreviation line := (list N).

Definition LF : N := 10%N.
Definition CR : N := 13%N.

(** The code points of an ASCII literal, to write examples. *)
Fixpoint text (s : string) : line :=
  match s with
  | EmptyString => []
  | String a s' => Ascii.N_of_ascii a :: text s'
  end.

(** [len(c.encode("utf-8"))] for one code point; lone surrogates cannot be
    encoded, and a [str] holds nothing above U+10FFFF. *)
Definition utf8_char_len (c : N) : result Z :=
  if (c <? 0x80)%N then Ok 1
  else if (c <? 0x800)%N then Ok 2
  else if ((0xD800 <=? c) && (c <=? 0xDFFF))%N then Raise UnicodeEncodeError
  else if (c <? 0x10000)%N then Ok 3
  else if (c <=? 0x10FFFF)%N then Ok 4
  else Raise UnicodeEncodeError.

(** [len(line.encode("utf-8"))] *)
Fixpoint encode_len (l : line) : result Z :=
  match l with
  | [] => Ok 0
  | c :: l' =>
      n ← utf8_char_len c;
      m ← encode_len l';
      Ok (n + m)
  end.

(** [str.isspace] on one code point: the white space [str.split()] cuts at. *)
Definition isspace (c : N) : bool :=
  ((9 <=? c) && (c <=? 13) || (28 <=? c) && (c <=? 32)
   || (c =? 0x85) || (c =? 0xA0) || (c =? 0x1680)
   || (0x2000 <=? c) && (c <=? 0x200A)
   || (c =? 0x2028) || (c =? 0x2029) || (c =? 0x202F)
   || (c =? 0x205F) || (c =? 0x3000))%N.

(** [line.split()]: the maximal runs of characters that are not white space.
    [cur] is the word being read, last character first. *)
Fixpoint split_from (cur : line) (l : line) : list line :=
  match l with
  | [] => match cur with [] => [] | _ => [rev cur] end
  | c :: l' =>
      if isspace c
      then match cur with
           | [] => split_from [] l'
           | _ => rev cur :: split_from [] l'
           end
      else split_from (c :: cur) l'
  end.

Definition split (l : line) : list line := split_from [] l.

(** ** The seeded generator

    [Random seed] is [Random(seed)], [random] is [Random.random] and
    [randbelow n] is [Random._randbelow(n)]; each draw returns the next state
    of the generator. The two laws are the documented ranges of the draws. *)

Class SeededRng := {
  rng : Type;
  Random : string -> rng;
  random : rng -> Q * rng;
  randbelow : nat -> rng -> nat * rng;
  random_range : forall s, (0 <= fst (random s) /\ fst (random s) < 1)%Q;
  randbelow_range : forall n s, (0 < n)%nat -> (fst (randbelow n s) < n)%nat
}.

(** ** Loops

    A [for x in xs] loop whose body may [break] or raise. The loop returns its
    last state and the items it did not consume: after a [break] a later loop
    over the same iterator goes on from there. *)

Inductive flow (S : Type) :=
  | Continue (st : S)
  | Break (st : S).
Arguments Continue {S} st.
Arguments Break {S} st.

Fixpoint for_in {A S} (body : S -> A -> result (flow S)) (st : S) (xs : list A)
  : result (S * list A) :=
  match xs with
  | [] => Ok (st, [])
  | x :: rest =>
      match body st x with
      | Raise e => Raise e
      | Ok (Break st') => Ok (st', rest)
      | Ok (Continue st') => for_in body st' rest
      end
  end.

(** The states the loop goes through: the one it starts in and the one after
    each iteration it completes. *)
Fixpoint for_in_states {A S} (body : S -> A -> result (flow S)) (st : S)
  (xs : list A) : list S :=
  st ::
  match xs with
  | [] => []
  | x :: rest =>
      match body st x with
      | Raise _ => []
      | Ok (Break st') => [st']
      | Ok (Continue st') => for_in_states body st' rest
      end
  end.

Section Shufflers.

Context {R : SeededRng}.

(** ** [random.shuffle]

<<
    for i in reversed(range(1, len(x))):
        j = randbelow(i + 1)
        x[i], x[j] = x[j], x[i]
>> *)

(** [x[i], x[j] = x[j], x[i]]; both indexes are in range wherever [shuffle]
    uses it ([shuffle_swaps_in_range] below). *)
Definition swap {A} (x : list A) (i j : nat) : list A :=
  match x !! j, x !! i with
  | Some xj, Some xi => <[j := xi]> (<[i := xj]> x)
  | _, _ => x
  end.

Fixpoint shuffle_from {A} (i : nat) (x : list A) (s : rng) : list A * rng :=
  match i with
  | O => (x, s)
  | S i' =>
      let '(j, s') := randbelow (i + 1) s in
      shuffle_from i' (swap x i j) s'
  end.

Definition shuffle {A} (x : list A) (s : rng) : list A * rng :=
  shuffle_from (length x - 1) x s.

(** ** [shuffle_with_max_lines] *)

(** Python's [a / b] on numbers. *)
Definition truediv (a b : Q) : result Q :=
  if Qeq_bool b 0 then Raise ZeroDivisionError else Ok (a / b)%Q.

(** [lines.popleft()] *)
Definition popleft {A} (lines : list A) : result (list A) :=
  match lines with
  | [] => Raise IndexError
  | _ :: lines' => Ok lines'
  end.

Section WithMaxLines.

Variables (line_stream : list line) (seed : string).
Variables (max_lines max_words_in_sentence total_byte_size : Z).

(** The first loop: the reservoir and the bytes seen. *)
Record fill_state := {
  fill_lines : list line;
  fill_total_bytes : Z
}.

Definition fill_body (st : fill_state) (l : line) : result (flow fill_state) :=
  n ← encode_len l;
  let total_bytes := fill_total_bytes st + n in
  if Z.of_nat (length (split l)) >? max_words_in_sentence
  then Ok (Continue {| fill_lines := fill_lines st; fill_total_bytes := total_bytes |})
  else
    let lines := fill_lines st ++ [l] in
    if Z.of_nat (length lines) =? max_lines
    then Ok (Break {| fill_lines := lines; fill_total_bytes := total_bytes |})
    else Ok (Continue {| fill_lines := lines; fill_total_bytes := total_bytes |}).

(** The second loop: the reservoir, the generator, the bytes seen and [i]. *)
Record sample_state := {
  sample_lines : list line;
  sample_random : rng;
  sample_total_bytes : Z;
  sample_i : Z
}.

Definition sample_body (st : sample_state) (l : line)
  : result (flow sample_state) :=
  let i := sample_i st + 1 in
  n ← encode_len l;
  let total_bytes := sample_total_bytes st + n in
  average_bytes_per_line ← truediv (inject_Z total_bytes) (inject_Z (max_lines + i));
  estimated_lines ← truediv (inject_Z total_byte_size) average_bytes_per_line;
  line_sampling_probability ← truediv (inject_Z max_lines) estimated_lines;
  let '(r, s) := random (sample_random st) in
  if negb (Qle_bool line_sampling_probability r)
  then
    lines ← popleft (sample_lines st);
    Ok (Continue {| sample_lines := lines ++ [l]; sample_random := s;
                    sample_total_bytes := total_bytes; sample_i := i |})
  else
    Ok (Continue {| sample_lines := sample_lines st; sample_random := s;
                    sample_total_bytes := total_bytes; sample_i := i |}).

Definition fill_init : fill_state :=
  {| fill_lines := []; fill_total_bytes := 0 |}.

(** The state the second loop starts in, after the first shuffle. *)
Definition sample_init (st : fill_state) : sample_state :=
  let '(lines, s) := shuffle (fill_lines st) (Random seed) in
  {| sample_lines := lines; sample_random := s;
     sample_total_bytes := fill_total_bytes st; sample_i := 0 |}.

Definition shuffle_with_max_lines : result (list line) :=
  '(st, line_stream) ← for_in fill_body fill_init line_stream;
  '(st, _) ← for_in sample_body (sample_init st) line_stream;
  Ok (fst (shuffle (sample_lines st) (sample_random st))).

(** Every value the deque [lines] takes while the stream is consumed: after
    each iteration of the first loop, after the first shuffle, and after each
    iteration of the second loop. *)
Definition reservoir_history : list (list line) :=
  (fill_lines <$> for_in_states fill_body fill_init line_stream) ++
  match for_in fill_body fill_init line_stream with
  | Ok (st, line_stream) =>
      sample_lines <$> for_in_states sample_body (sample_init st) line_stream
  | Raise _ => []
  end.

End WithMaxLines.

(** ** [shuffle_in_temp_files] *)

(** [open(name, "wt")]: the file is created, or emptied when it exists. *)
Definition open_wt (dir : gmap nat line) (n : nat) : gmap nat line :=
  <[n := []]> dir.

(** [chunk_file.write(data)] on the open file [chunk.n]. *)
Definition write (dir : gmap nat line) (n : nat) (data : line) : gmap nat line :=
  alter (fun content => content ++ data) n dir.

(** [open(name, "r")] *)
Definition open_r (dir : gmap nat line) (n : nat) : result line :=
  match dir !! n with
  | Some content => Ok content
  | None => Raise FileNotFoundError
  end.

(** [os.remove(name)] *)
Definition remove (dir : gmap nat line) (n : nat) : result (gmap nat line) :=
  match dir !! n with
  | Some _ => Ok (delete n dir)
  | None => Raise FileNotFoundError
  end.

(** [file.readlines()] of a file opened with ["r"]: a line ends at ["\n"],
    ["\r"] or ["\r\n"], each read as ["\n"] and kept at the end of the line;
    the last line may have none. [cur] is the line being read, last character
    first. *)
Fixpoint readlines_from (cur : line) (content : line) : list line :=
  match content with
  | [] => match cur with [] => [] | _ => [rev cur] end
  | c :: rest =>
      if (c =? LF)%N then rev (LF :: cur) :: readlines_from [] rest
      else if (c =? CR)%N then
        match rest with
        | c' :: rest' =>
            if (c' =? LF)%N then rev (LF :: cur) :: readlines_from [] rest'
            else rev (LF :: cur) :: readlines_from [] rest
        | [] => rev (LF :: cur) :: readlines_from [] rest
        end
      else readlines_from (c :: cur) rest
  end.

Definition readlines (content : line) : list line := readlines_from [] content.

(** What a Python function returns. *)
Inductive value :=
  | PyNone
  | PyInt (n : Z).

Section InTempFiles.

Variables (line_stream : list line) (output : list line) (seed : string).
Variables (chunk_bytes bucket_bytes : Z).
Variables (chunk_dir : gmap nat line) (keep_chunks : bool).

(** The loop that writes the chunks: the directory, the index of the open
    chunk and the bytes written to it. *)
Record chunk_state := {
  chunk_files : gmap nat line;
  chunk_index : nat;
  bytes_written_to_chunk : Z
}.

Definition chunk_body (st : chunk_state) (l : line) : result (flow chunk_state) :=
  n ← encode_len l;
  let line_bytes := n + 1 in
  let st :=
    if bytes_written_to_chunk st + line_bytes >? chunk_bytes
    then {| chunk_files := open_wt (chunk_files st) (chunk_index st + 1);
            chunk_index := chunk_index st + 1;
            bytes_written_to_chunk := 0 |}
    else st in
  Ok (Continue {| chunk_files := write (chunk_files st) (chunk_index st) (l ++ [LF]);
                  chunk_index := chunk_index st;
                  bytes_written_to_chunk := bytes_written_to_chunk st + line_bytes |}).

Definition chunk_init : chunk_state :=
  {| chunk_files := open_wt chunk_dir 0;
     chunk_index := 0;
     bytes_written_to_chunk := 0 |}.

(** The first stage: the chunks on disk when the stream ends. *)
Definition write_chunks : result chunk_state :=
  '(st, _) ← for_in chunk_body chunk_init line_stream;
  Ok st.

(** The loop that fills the bucket. [flushed] is not a variable of the
    program: it lists the buckets written to the sink so far, each as it was
    written, so that properties of a flushed bucket can be stated. *)
Record bucket_state := {
  bucket : list line;
  bytes_in_bucket : Z;
  bucket_count : nat;
  sink : list line;
  bucket_random : rng;
  flushed : list (list line)
}.

Definition bucket_body (st : bucket_state) (l : line) : result (flow bucket_state) :=
  let bucket' := bucket st ++ [l] in
  n ← encode_len l;
  let bytes_in_bucket' := bytes_in_bucket st + n in
  if bytes_in_bucket' >? bucket_bytes
  then
    let '(shuffled, s) := shuffle bucket' (bucket_random st) in
    Ok (Continue {| bucket := []; bytes_in_bucket := 0;
                    bucket_count := bucket_count st + 1;
                    sink := sink st ++ shuffled;
                    bucket_random := s;
                    flushed := flushed st ++ [shuffled] |})
  else
    Ok (Continue {| bucket := bucket'; bytes_in_bucket := bytes_in_bucket';
                    bucket_count := bucket_count st;
                    sink := sink st;
                    bucket_random := bucket_random st;
                    flushed := flushed st |}).

(** The loop over the shuffled chunk indexes: the directory and the bucket. *)
Record read_state := {
  read_files : gmap nat line;
  read_bucket : bucket_state
}.

Definition read_body (st : read_state) (chunk_index : nat) : result (flow read_state) :=
  file ← open_r (read_files st) chunk_index;
  '(b, _) ← for_in bucket_body (read_bucket st) (readlines file);
  files ← (if keep_chunks then Ok (read_files st)
           else remove (read_files st) chunk_index);
  Ok (Continue {| read_files := files; read_bucket := b |}).

(** The second stage: [[*range(chunk_count)]], shuffled. *)
Definition shuffled_chunk_indexes (st : chunk_state) : list nat * rng :=
  let chunk_count := (chunk_index st + 1)%nat in
  shuffle (seq 0 chunk_count) (Random seed).

Definition read_init (st : chunk_state) (random : rng) : read_state :=
  {| read_files := chunk_files st;
     read_bucket := {| bucket := []; bytes_in_bucket := 0; bucket_count := 0;
                       sink := output; bucket_random := random;
                       flushed := [] |} |}.

(** The last lines of the function: the bucket left over is written. *)
Definition flush_last (b : bucket_state) : bucket_state :=
  match bucket b with
  | [] => b
  | _ =>
      let '(shuffled, s) := shuffle (bucket b) (bucket_random b) in
      {| bucket := shuffled; bytes_in_bucket := bytes_in_bucket b;
         bucket_count := bucket_count b;
         sink := sink b ++ shuffled;
         bucket_random := s;
         flushed := flushed b ++ [shuffled] |}
  end.

(** What a call leaves behind: the directory, the sink, what it printed and
    what it returned; [out_flushed] and [out_bucket_count] are the last values
    of [flushed] and [bucket_count]. *)
Record outcome := {
  out_files : gmap nat line;
  out_output : list line;
  out_stdout : list string;
  out_return : value;
  out_flushed : list (list line);
  out_bucket_count : nat
}.

Definition shuffle_in_temp_files : result outcome :=
  st ← write_chunks;
  let '(indexes, random) := shuffled_chunk_indexes st in
  '(st, _) ← for_in read_body (read_init st random) indexes;
  let b := flush_last (read_bucket st) in
  Ok {| out_files := read_files st;
        out_output := sink b;
        out_stdout := ["Shuffled with " +:+ pretty (bucket_count b) +:+ " buckets."];
        out_return := PyNone;
        out_flushed := flushed b;
        out_bucket_count := bucket_count b |}.

End InTempFiles.

End Shufflers.


(** ** A small generator

    A linear congruential generator, to run the definitions on concrete
    inputs. It stands for no particular release of CPython's generator: the
    concrete results below that matter are shown for every generator. *)

Definition lcg_next (s : N) : N := ((s * 1103515245 + 12345) mod 2147483648)%N.

Definition lcg_seed (seed : string) : N := N.of_nat (String.length seed).

Definition lcg_random (s : N) : Q * N :=
  (Qmake (Z.of_N (s mod 1000)) 1000, lcg_next s).

Definition lcg_randbelow (n : nat) (s : N) : nat * N :=
  (N.to_nat (s mod N.of_nat n), lcg_next s).

Program Definition lcg : SeededRng := {|
  rng := N;
  Random := lcg_seed;
  random := lcg_random;
  randbelow := lcg_randbelow
|}.
Next Obligation.
  intros s. unfold lcg_random, Qle, Qlt; simpl.
  assert (s mod 1000 < 1000)%N as H by (apply N.mod_lt; lia).
  revert H; generalize (s mod 1000)%N; intros; lia.
Qed.
Next Obligation.
  intros n s Hn; simpl.
  assert (s mod N.of_nat n < N.of_nat n)%N as H by (apply N.mod_lt; lia).
  revert H; generalize (s mod N.of_nat n)%N; intros; lia.
Qed.


(** ** Vocabulary of the specification *)

(** [line.encode("utf-8")] does not raise. *)
Definition encodable (l : line) : Prop := is_ok (encode_len l) = true.

(** The number of bytes of an encodable string. *)
Definition utf8_len (l : line) : Z :=
  match encode_len l with
  | Ok n => n
  | Raise _ => 0
  end.

(** The bytes of a list of strings. *)
Definition total_len (ls : list line) : Z :=
  foldr (fun l acc => utf8_len l + acc) 0 ls.

(** A line of a stream holds no line ending. *)
Definition newline_free (l : line) : Prop := (LF ∉ l) /\ (CR ∉ l).

(** [line + "\n"] *)
Definition with_newline (l : line) : line := l ++ [LF].

(** The text of a file the lines [g] were written to, one after the other. *)
Definition join (g : list line) : line := concat (with_newline <$> g).

(** The line is dropped by the first loop of [shuffle_with_max_lines]. *)
Definition too_long (max_words_in_sentence : Z) (l : line) : bool :=
  Z.of_nat (length (split l)) >? max_words_in_sentence.

(** The lines of a stream the word-count filter lets through. *)
Definition kept (max_words_in_sentence : Z) (ls : list line) : list line :=
  filter (fun l => too_long max_words_in_sentence l = false) ls.

(** A bucket written because it went over [bucket_bytes]: it is over the
    budget, and it was within it (or empty) before its last line [l] came. *)
Definition overflowed (bucket_bytes : Z) (fb : list line) : Prop :=
  bucket_bytes < total_len fb /\
  exists l before, fb ≡ₚ before ++ [l] /\
    (before = [] \/ total_len before <= bucket_bytes).

(** The lines read back from the chunk [i] when the chunks hold the groups
    [gs]. *)
Definition chunk_lines (gs : list (list line)) (i : nat) : list line :=
  readlines (join (default [] (gs !! i))).

(** What a call of [shuffle_in_temp_files] shows: the lines it added to the
    sink, which held [output] before, what it printed and what it returned. *)
Definition observable (output : list line) (r : result outcome)
  : result (list line * list string * value) :=
  o ← r; Ok (drop (length output) (out_output o), out_stdout o, out_return o).

(** The budget of a chunk file as the specification words it: the file has
    at most [chunk_bytes] bytes, or it holds one line of the stream, alone,
    that is over the budget by itself. *)
Definition chunk_budget_respected (chunk_bytes : Z) (line_stream : list line)
  (content : line) : Prop :=
  utf8_len content <= chunk_bytes \/
  exists l, l ∈ line_stream /\ content = with_newline l /\
    chunk_bytes < utf8_len content.


(** ** Invariants and relations of the proofs *)

(** Two iterations end alike: both raise the same exception, or both go on,
    or both leave the loop, in related states. *)
Definition flow_rel {S1 S2} (Rel : S1 -> S2 -> Prop)
  (r1 : result (flow S1)) (r2 : result (flow S2)) : Prop :=
  match r1, r2 with
  | Ok (Continue a), Ok (Continue b) => Rel a b
  | Ok (Break a), Ok (Break b) => Rel a b
  | Raise e1, Raise e2 => e1 = e2
  | _, _ => False
  end.

(** Two loops end alike: both raise the same exception, or both return, in
    related states and with the same items left. *)
Definition loop_rel {A S1 S2} (Rel : S1 -> S2 -> Prop)
  (r1 : result (S1 * list A)) (r2 : result (S2 * list A)) : Prop :=
  match r1, r2 with
  | Ok (a, rest1), Ok (b, rest2) => Rel a b /\ rest1 = rest2
  | Raise e1, Raise e2 => e1 = e2
  | _, _ => False
  end.

Section ChunkInvariants.

Variables (chunk_bytes : Z) (chunk_dir : gmap nat line).

(** The lines of a chunk are within the budget, or the chunk holds one line
    that is over the budget by itself. *)
Definition chunk_ok (g : list line) : Prop :=
  total_len (with_newline <$> g) <= chunk_bytes \/
  exists l, g = [l] /\ chunk_bytes < total_len (with_newline <$> [l]).

(** The state of the loop after the lines [pre]: the closed chunks hold the
    groups [gs], the open chunk holds [g], and the files above it are those
    the directory had. *)
Definition chunk_inv (pre : list line) (st : chunk_state) : Prop :=
  exists gs g,
    chunk_index st = length gs /\
    concat (gs ++ [g]) = pre /\
    (forall i g', (gs ++ [g]) !! i = Some g' ->
       chunk_files st !! i = Some (join g')) /\
    (forall i, (length gs < i)%nat -> chunk_files st !! i = chunk_dir !! i) /\
    bytes_written_to_chunk st = total_len (with_newline <$> g) /\
    (0 <= chunk_bytes -> Forall chunk_ok (gs ++ [g])).

End ChunkInvariants.

Section BucketInvariants.

Context {R : SeededRng}.
Variables (output : list line) (bucket_bytes : Z) (keep_chunks : bool).

(** The state of the inner loop after the lines [done] were read. *)
Definition bucket_inv (done : list line) (b : bucket_state) : Prop :=
  sink b = output ++ concat (flushed b) /\
  concat (flushed b) ++ bucket b ≡ₚ done /\
  bytes_in_bucket b = total_len (bucket b) /\
  (bucket b = [] \/ bytes_in_bucket b <= bucket_bytes) /\
  length (flushed b) = bucket_count b /\
  Forall (overflowed bucket_bytes) (flushed b).

(** The state of the outer loop after the chunks [pre]: the chunks not yet
    read hold their groups, and the bucket has read the lines of [pre]. *)
Definition read_inv (gs : list (list line)) (pre : list nat) (st : read_state)
  : Prop :=
  (forall i g, gs !! i = Some g -> keep_chunks = true \/ i ∉ pre ->
     read_files st !! i = Some (join g)) /\
  bucket_inv (pre ≫= chunk_lines gs) (read_bucket st).

End BucketInvariants.

Section TwoCallsRelations.

Context {R : SeededRng}.
Variables (output1 output2 : list line).

Definition chunk_rel (st1 st2 : chunk_state) : Prop :=
  chunk_index st1 = chunk_index st2 /\
  bytes_written_to_chunk st1 = bytes_written_to_chunk st2 /\
  forall i, (i <= chunk_index st1)%nat -> chunk_files st1 !! i = chunk_files st2 !! i.

Definition bucket_rel (b1 b2 : bucket_state) : Prop :=
  bucket b1 = bucket b2 /\
  bytes_in_bucket b1 = bytes_in_bucket b2 /\
  bucket_count b1 = bucket_count b2 /\
  bucket_random b1 = bucket_random b2 /\
  flushed b1 = flushed b2 /\
  exists w, sink b1 = output1 ++ w /\ sink b2 = output2 ++ w.

Definition read_rel (n : nat) (st1 st2 : read_state) : Prop :=
  (forall i, (i < n)%nat -> read_files st1 !! i = read_files st2 !! i) /\
  bucket_rel (read_bucket st1) (read_bucket st2).

End TwoCallsRelations.

(** * The other functions of [pipeline/common/datasets.py] *)

(** ** Exceptions of these functions

    Besides the exceptions above: a plain [Exception] with its message, the
    [KeyError] of a dictionary, and those the built-in functions the table is
    printed with can raise. *)

Inductive exception :=
  | Builtin (e : exn)
  | Exception (message : line)
  | KeyError
  | TypeError
  | ValueError
  | OverflowError
  | UnboundLocalError.

Inductive attempt (A : Type) :=
  | Returns (a : A)
  | Raises (e : exception).
Arguments Returns {A} a.
Arguments Raises {A} e.

Global Instance attempt_ret : MRet attempt := fun A a => Returns a.

Global Instance attempt_bind : MBind attempt := fun A B k r =>
  match r with
  | Returns a => k a
  | Raises e => Raises e
  end.

(** ** More of [str] *)

(** [ord(c)] of an ASCII string of one character. *)
Definition ord (c : string) : N := hd 0%N (text c).

(** [s.split(sep)] for a separator [sep] of one character: the fields
    between the separators, empty ones too; never the empty list. *)
Fixpoint split_on (sep : N) (s : line) : list line :=
  match s with
  | [] => [[]]
  | c :: rest =>
      if (c =? sep)%N then [] :: split_on sep rest
      else
        match split_on sep rest with
        | field :: fields => (c :: field) :: fields
        | [] => [[c]]
        end
  end.

(** [sep.join(parts)] *)
Fixpoint str_join (sep : line) (parts : list line) : line :=
  match parts with
  | [] => []
  | [part] => part
  | part :: parts' => part ++ sep ++ str_join sep parts'
  end.

(** [s.startswith(old)] *)
Fixpoint startswith (old s : line) : bool :=
  match old, s with
  | [], _ => true
  | _ :: _, [] => false
  | o :: old', c :: s' => (o =? c)%N && startswith old' s'
  end.

(** [s.replace(old, new)]: the occurrences of [old] are replaced from left to
    right, none overlapping another. [skip] counts the characters of an
    occurrence that are still to pass. *)
Fixpoint replace_from (skip : nat) (old new s : line) : line :=
  match s with
  | [] => []
  | c :: rest =>
      match skip with
      | S skip' => replace_from skip' old new rest
      | O =>
          if startswith old s
          then new ++ replace_from (length old - 1) old new rest
          else c :: replace_from 0 old new rest
      end
  end.

Definition replace (old new s : line) : line :=
  match old with
  | [] => new ++ concat (map (fun c => c :: new) s)
  | _ => replace_from 0 old new s
  end.

(** ** [Dataset] *)

Module Dataset.

Record t := {
  key : line;
  importer : line;
  name : line
}.

(** [Dataset.__init__] *)
Definition init (dataset_key : line) : attempt t :=
  let key_parts := split_on (ord "_") dataset_key in
  match key_parts with
  | [] => Raises (Builtin IndexError)
  | importer :: rest =>
      let name := str_join (text "_") rest in
      match importer with
      | [] =>
          Raises (Exception
            (text "Could not find the importer in the dataset key " ++ dataset_key))
      | _ =>
          match name with
          | [] =>
              Raises (Exception
                (text "Could not find the name in the dataset key " ++ dataset_key))
          | _ => Returns {| key := dataset_key; importer := importer; name := name |}
          end
      end
  end.

Definition _escape (string : line) : line :=
  replace (text "]") (text "_")
    (replace (text "[") (text "_")
       (replace (text ":") (text "_")
          (replace (text ".") (text "_")
             (replace (text "/") (text "_")
                (replace (text "://") (text "_") string))))).

Definition file_safe_key (self : t) : line := _escape (key self).

Definition file_safe_name (self : t) : line := _escape (name self).

End Dataset.

(** The characters [_escape] takes out of a name. *)
Definition unsafe_chars : line := text "/.:[]".

Definition file_safe (s : line) : Prop := forall c, c ∈ unsafe_chars -> c ∉ s.


(** ** [SentenceSizeDistribution] *)

Module SentenceSizeDistribution.

Record t := {
  histogram : gmap nat Z;
  scale : Z
}.

(** [SentenceSizeDistribution.__init__] *)
Definition init (scale : Z) : t := {| histogram := ∅; scale := scale |}.

(** [count_line]. The statement [self.histogram[count] += 1] reads the entry,
    which raises [KeyError] when there is none, and stores it again. *)
Definition count_line (self : t) (l : line) : attempt t :=
  let count := length l in
  let histogram0 :=
    if decide (histogram self !! count = None)
    then <[count := 0]> (histogram self)
    else histogram self in
  match histogram0 !! count with
  | Some sentences =>
      Returns {| histogram := <[count := sentences + 1]> histogram0;
                 scale := scale self |}
  | None => Raises KeyError
  end.

End SentenceSizeDistribution.

(** ** Tables *)

Module Align.
Inductive t := left | right.
Global Instance eq_dec : EqDecision t.
Proof. solve_decision. Defined.
End Align.

(** The largest [Py_ssize_t], [sys.maxsize] on a 64-bit platform. *)
Definition ssize_max : Z := 2 ^ 63 - 1.

(** [str.ljust(length, fill_char)] and [str.rjust(length, fill_char)]: the
    length is read as a [Py_ssize_t], then the fill character, which is one
    character; the string is never cut. *)
Definition ljust (str : line) (length : Z) (fill_char : line) : attempt line :=
  if (length <? - ssize_max - 1) || (ssize_max <? length)
  then Raises OverflowError
  else
    match fill_char with
    | [c] =>
        Returns (str ++ replicate (Z.to_nat (length - Z.of_nat (List.length str))) c)
    | _ => Raises TypeError
    end.

Definition rjust (str : line) (length : Z) (fill_char : line) : attempt line :=
  if (length <? - ssize_max - 1) || (ssize_max <? length)
  then Raises OverflowError
  else
    match fill_char with
    | [c] =>
        Returns (replicate (Z.to_nat (length - Z.of_nat (List.length str))) c ++ str)
    | _ => Raises TypeError
    end.

(** What a table holds: members of [Align], strings and integers. *)
Inductive datum :=
  | an_align (a : Align.t)
  | a_str (s : line)
  | an_int (z : Z).

Global Instance datum_eq_dec : EqDecision datum.
Proof. solve_decision. Defined.

(** [isinstance(x, Align)] *)
Definition is_align (x : datum) : bool :=
  match x with an_align _ => true | _ => false end.

(** The number of digits [str] gives of an integer at most:
    [sys.get_int_max_str_digits()], when it was not set. *)
Definition int_max_str_digits : Z := 4300.

(** [str(x)]: an integer of more digits than the limit is a [ValueError]. *)
Definition str (x : datum) : attempt line :=
  match x with
  | an_align Align.left => Returns (text "Align.left")
  | an_align Align.right => Returns (text "Align.right")
  | a_str s => Returns s
  | an_int z =>
      if 10 ^ int_max_str_digits <=? Z.abs z then Raises ValueError
      else Returns (text (pretty z))
  end.

(** Printing: the text on the standard output grows; what was printed before
    an exception stays printed. *)
Definition io (A : Type) : Type := line -> attempt A * line.

Global Instance io_ret : MRet io := fun A a stdout => (Returns a, stdout).

Global Instance io_bind : MBind io := fun A B k m stdout =>
  match m stdout with
  | (Returns a, stdout') => k a stdout'
  | (Raises e, stdout') => (Raises e, stdout')
  end.

Definition raise {A} (e : exception) : io A := fun stdout => (Raises e, stdout).

Definition lift {A} (r : attempt A) : io A := fun stdout => (r, stdout).

(** [sys.stdout.write(s)] on a standard output that encodes with UTF-8: a
    string that cannot be encoded raises, and nothing of it is written. *)
Definition stdout_write (s : line) : io unit := fun stdout =>
  match encode_len s with
  | Ok _ => (Returns tt, stdout ++ s)
  | Raise e => (Raises (Builtin e), stdout)
  end.

(** [print(s, end=end_)] *)
Definition print (s end_ : line) : io unit :=
  _ ← stdout_write s;
  stdout_write end_.

(** [max(xs)] *)
Definition py_max (xs : list nat) : attempt nat :=
  match xs with
  | [] => Raises ValueError
  | x :: xs' => Returns (foldl Nat.max x xs')
  end.

(** [zip] of all the rows: the columns, as many as the shortest row has
    cells. *)
Fixpoint zip_star {A} (rows : list (list A)) : list (list A) :=
  match rows with
  | [] => []
  | [row] => (fun x => [x]) <$> row
  | row :: rows' => zip_with cons row (zip_star rows')
  end.

(** [ljust] or [rjust], as a value. *)
Definition justify : Type := line -> Z -> line -> attempt line.

(** The loop over the cells of a row; [alignment] is the variable of the
    loop, which is still there after it. *)
Fixpoint print_cells (cells : list (datum * nat * justify))
    (alignment : option justify) : io (option justify) :=
  match cells with
  | [] => mret alignment
  | (datum, max_len, alignment') :: cells' =>
      text' ← lift (s ← str datum;
                    alignment' s (Z.of_nat max_len) (text " "));
      _ ← print (text " " ++ text' ++ text " |") [];
      print_cells cells' (Some alignment')
  end.

(** The loop that prints the separator under the header, with the
    [alignment] the loop over the cells left. *)
Fixpoint print_separator (column_lengths : list nat)
    (alignment : option justify) : io unit :=
  match column_lengths with
  | [] => mret tt
  | length :: column_lengths' =>
      match alignment with
      | None => raise UnboundLocalError
      | Some alignment' =>
          text' ← lift (alignment' [] (Z.of_nat length) (text "-"));
          _ ← print (text " " ++ text' ++ text " |") [];
          print_separator column_lengths' alignment
      end
  end.

(** The loop over the rows, from the row of number [index] on. *)
Fixpoint print_rows (index : nat) (rows : list (list datum))
    (column_lengths : list nat) (alignments : list justify)
    (alignment : option justify) : io unit :=
  match rows with
  | [] => mret tt
  | row :: rows' =>
      _ ← print (text "|") [];
      alignment ← print_cells (zip (zip row column_lengths) alignments) alignment;
      _ ← print [] [LF];
      _ ← (if (index =? 0)%nat
           then _ ← print (text "|") [];
                _ ← print_separator column_lengths alignment;
                print [] [LF]
           else mret tt);
      print_rows (S index) rows' column_lengths alignments alignment
  end.

(** [max(len(str(x)) for x in column)] *)
Definition column_length (column : list datum) : attempt nat :=
  lengths ← mapM (fun x => s ← str x; mret (length s)) column;
  py_max lengths.

(** [print_table]. The function returns nothing; the value here is the list
    [table] of the caller as the call leaves it, since [table.pop(0)] changes
    it. *)
Definition print_table (table : list (list datum)) : io (list (list datum)) :=
  _ ← (if decide (length table <= 1)%nat
       then print (text "(no datasets)") [LF]
       else mret tt);
  first_row ← match table with
              | [] => raise (Builtin IndexError)
              | row :: _ => mret row
              end;
  first ← match first_row with
          | [] => raise (Builtin IndexError)
          | x :: _ => mret x
          end;
  let '(alignments, table) :=
    if is_align first
    then (first_row, tail table)
    else (replicate (length first_row) (an_align Align.left), table) in
  let alignments : list justify :=
    (fun align => if decide (align = an_align Align.left) then ljust else rjust)
      <$> alignments in
  let transposed_table := zip_star table in
  column_lengths ← lift (mapM column_length transposed_table);
  _ ← print [] [LF];
  _ ← print_rows 0 table column_lengths alignments None;
  mret table.

(** Calling [count_line] on each line in turn. *)
Fixpoint count_lines (self : SentenceSizeDistribution.t) (lines : list line)
    : attempt SentenceSizeDistribution.t :=
  match lines with
  | [] => Returns self
  | l :: lines' =>
      self' ← SentenceSizeDistribution.count_line self l;
      count_lines self' lines'
  end.

(** The lines of [lines] that have [n] characters. *)
Definition of_length (n : nat) (lines : list line) : list line :=
  filter (fun l => length l = n) lines.

(** [ljust] or [rjust]: what [print_table] aligns a cell with. *)
Definition is_justify (f : justify) : Prop := f = ljust \/ f = rjust.

(** A cell that can be printed: [str] gives its text, which the standard
    output can encode and which is no longer than a string can be. *)
Definition printable (x : datum) : Prop :=
  exists s, str x = Returns s /\ encodable s /\ Z.of_nat (length s) <= ssize_max.

(** The text of a cell that can be printed. *)
Definition str_text (x : datum) : line :=
  match str x with
  | Returns s => s
  | Raises _ => []
  end.

(** The cells of a row that the loop prints: each can be printed, to a
    length a string can have, with [ljust] or [rjust]. *)
Definition cell_ok (c : datum * nat * justify) : Prop :=
  printable c.1.1 /\ Z.of_nat c.1.2 <= ssize_max /\ is_justify c.2.

(** The length of a printed line of a table whose columns have the lengths
    [column_lengths]: ["|"], then each cell between [" "] and [" |"]. *)
Definition table_width (column_lengths : list nat) : nat :=
  S (sum_list_with (fun w => w + 3)%nat column_lengths).

(** What [print_table] prints first when the table has at most one row. *)
Definition no_datasets (table : list (list datum)) : line :=
  if decide (length table <= 1)%nat then text "(no datasets)" ++ [LF] else [].

(** ** Examples

    The key of the documentation of [Dataset], and a table as
    [report_log_scale] builds them. *)

Definition example_key : line := text "opus_CCAligned/v1".

Definition example_dataset : Dataset.t := {|
  Dataset.key := text "opus_CCAligned/v1";
  Dataset.importer := text "opus";
  Dataset.name := text "CCAligned/v1"
|}.

Definition example_header : list datum :=
  [a_str (text "length"); a_str (text "sentences graph"); a_str (text "sentences")].

Definition example_rows : list (list datum) :=
  [example_header;
   [a_str (text "0-1"); a_str (text "#"); an_int 12];
   [a_str (text "1-2"); a_str (text "#####"); an_int 1200]].

(** * Properties *)

(** ** The error monad *)

Lemma bind_ok {A B} (r : result A) (k : A -> result B) (b : B) :
  (r ≫= k) = Ok b -> exists a, r = Ok a /\ k a = Ok b.
Proof. destruct r as [a|e]; simpl; [eauto | discriminate]. Qed.

Ltac inv_bind H :=
  let a := fresh "a" in
  let Ha := fresh "Ha" in
  apply bind_ok in H as (a & Ha & H).

(** ** Loop rules *)

Section ForIn.

Context {A S : Type} (body : S -> A -> result (flow S)).

(** Partial correctness. [I pre st] holds of the state reached after the
    items [pre] when no iteration has left the loop, [B pre st] of the state
    a [break] leaves. *)
Lemma for_in_inv (I B : list A -> S -> Prop) (xs : list A) :
  (forall pre x post st st', xs = pre ++ x :: post -> I pre st ->
     body st x = Ok (Continue st') -> I (pre ++ [x]) st') ->
  (forall pre x post st st', xs = pre ++ x :: post -> I pre st ->
     body st x = Ok (Break st') -> B (pre ++ [x]) st') ->
  forall st0 st' rest, I [] st0 -> for_in body st0 xs = Ok (st', rest) ->
  exists pre, xs = pre ++ rest /\ (I pre st' /\ rest = [] \/ B pre st').
Proof.
  intros Hc Hb.
  cut (forall post pre st st' rest, xs = pre ++ post -> I pre st ->
         for_in body st post = Ok (st', rest) ->
         exists mid, post = mid ++ rest /\
           (I (pre ++ mid) st' /\ rest = [] \/ B (pre ++ mid) st')).
  { intros Hgen st0 st' rest HI Hrun.
    destruct (Hgen xs [] st0 st' rest eq_refl HI Hrun) as (mid & -> & H).
    exists mid; auto. }
  induction post as [|x post IH]; intros pre st st' rest Hxs HI Hrun; simpl in Hrun.
  - injection Hrun as <- <-. exists []. rewrite !app_nil_r. auto.
  - destruct (body st x) as [[st1|st1]|e] eqn:Hbody; [| |discriminate].
    + destruct (IH (pre ++ [x]) st1 st' rest) as (mid & -> & H); auto.
      { by rewrite <- app_assoc. }
      { eapply Hc; eauto. }
      exists (x :: mid). rewrite <- app_assoc in H. auto.
    + injection Hrun as <- <-. exists [x]. split; [done|].
      right. eapply Hb; eauto.
Qed.

(** Total correctness: every iteration returns, so the loop does. *)
Lemma for_in_total (I B : list A -> S -> Prop) (xs : list A) :
  (forall pre x post st, xs = pre ++ x :: post -> I pre st ->
     exists f, body st x = Ok f /\
       match f with
       | Continue st' => I (pre ++ [x]) st'
       | Break st' => B (pre ++ [x]) st'
       end) ->
  forall st0, I [] st0 ->
  exists st' pre rest, for_in body st0 xs = Ok (st', rest) /\ xs = pre ++ rest /\
    (I pre st' /\ rest = [] \/ B pre st').
Proof.
  intros Hstep.
  cut (forall post pre st, xs = pre ++ post -> I pre st ->
         exists st' mid rest, for_in body st post = Ok (st', rest) /\
           post = mid ++ rest /\
           (I (pre ++ mid) st' /\ rest = [] \/ B (pre ++ mid) st')).
  { intros Hgen st0 HI.
    destruct (Hgen xs [] st0 eq_refl HI) as (st' & mid & rest & ? & ? & ?).
    exists st', mid, rest; auto. }
  induction post as [|x post IH]; intros pre st Hxs HI; simpl.
  - exists st, [], []. rewrite !app_nil_r. auto.
  - destruct (Hstep pre x post st Hxs HI) as ([st1|st1] & -> & H).
    + destruct (IH (pre ++ [x]) st1) as (st' & mid & rest & Hrun & -> & H'); auto.
      { by rewrite <- app_assoc. }
      exists st', (x :: mid), rest. rewrite <- app_assoc in H'. auto.
    + exists st1, [x], post. auto.
Qed.

(** Every state the loop goes through satisfies what the iterations keep. *)
Lemma for_in_states_Forall (I B : S -> Prop) :
  (forall st x st', I st -> body st x = Ok (Continue st') -> I st') ->
  (forall st x st', I st -> body st x = Ok (Break st') -> B st') ->
  forall xs st, I st -> Forall (fun s => I s \/ B s) (for_in_states body st xs).
Proof.
  intros Hc Hb. induction xs as [|x xs IH]; intros st HI; simpl.
  - constructor; [auto | constructor].
  - constructor; [auto|].
    destruct (body st x) as [[st1|st1]|e] eqn:Hbody.
    + apply IH. eauto.
    + constructor; [right; eauto | constructor].
    + constructor.
Qed.

End ForIn.

Lemma for_in_rel {A S1 S2} (body1 : S1 -> A -> result (flow S1))
  (body2 : S2 -> A -> result (flow S2)) (Rel : S1 -> S2 -> Prop) (xs : list A) :
  (forall x st1 st2, x ∈ xs -> Rel st1 st2 ->
     flow_rel Rel (body1 st1 x) (body2 st2 x)) ->
  forall st1 st2, Rel st1 st2 ->
  loop_rel Rel (for_in body1 st1 xs) (for_in body2 st2 xs).
Proof.
  induction xs as [|x xs IH]; intros Hstep st1 st2 HR; simpl.
  - auto.
  - pose proof (Hstep x st1 st2 (list_elem_of_here _ _) HR) as H.
    unfold flow_rel in H.
    destruct (body1 st1 x) as [[a|a]|e1], (body2 st2 x) as [[b|b]|e2];
      try done.
    apply IH; [|done]. intros y s1 s2 Hy. apply Hstep. by right.
Qed.

(** ** [random.shuffle] returns a permutation *)

Section Shuffle.

Context {R : SeededRng} {A : Type}.

Lemma swap_perm (x : list A) (i j : nat) : swap x i j ≡ₚ x.
Proof.
  unfold swap.
  destruct (x !! j) as [xj|] eqn:Hj; [|done].
  destruct (x !! i) as [xi|] eqn:Hi; [|done].
  destruct (decide (i = j)) as [->|Hne].
  - simplify_eq. by rewrite list_insert_insert_eq, list_insert_id.
  - apply Permutation_inj. split.
    + by rewrite !length_insert.
    + exists (fun k => if decide (k = i) then j else if decide (k = j) then i else k).
      split.
      * intros a b Hab. repeat case_decide; congruence.
      * intros k. repeat case_decide; subst.
        -- rewrite list_lookup_insert_ne by done.
           rewrite list_lookup_insert_eq; [done|]. by eapply lookup_lt_Some.
        -- rewrite list_lookup_insert_eq; [done|].
           rewrite length_insert. by eapply lookup_lt_Some.
        -- by rewrite !list_lookup_insert_ne by done.
Qed.

(** In [shuffle] both indexes of a swap are in range: [x[i]] and [x[j]] are
    there, and the swap is the double assignment. *)
Lemma shuffle_swaps_in_range (i : nat) (x : list A) (s : rng) :
  (S i < length x)%nat ->
  exists xi xj,
    x !! S i = Some xi /\ x !! (randbelow (S i + 1) s).1 = Some xj /\
    shuffle_from (S i) x s =
    shuffle_from i (<[(randbelow (S i + 1) s).1 := xi]> (<[S i := xj]> x))
      (randbelow (S i + 1) s).2.
Proof.
  intros Hi.
  pose proof (randbelow_range (S i + 1) s ltac:(lia)) as Hj.
  destruct (lookup_lt_is_Some_2 x (S i) Hi) as [xi Hxi].
  destruct (lookup_lt_is_Some_2 x (randbelow (S i + 1) s).1 ltac:(lia))
    as [xj Hxj].
  exists xi, xj. split_and!; [done..|].
  simpl. destruct (randbelow (S (i + 1)) s) as [j s'] eqn:Hdraw.
  replace (S (i + 1)) with (S i + 1)%nat in Hdraw by lia.
  rewrite Hdraw in Hxj. simpl in *.
  unfold swap. by rewrite Hxi, Hxj.
Qed.

Lemma shuffle_from_perm (i : nat) (x : list A) (s : rng) :
  (shuffle_from i x s).1 ≡ₚ x.
Proof.
  revert x s. induction i as [|i IH]; intros x s; simpl; [done|].
  destruct (randbelow _ s) as [j s'].
  rewrite IH. apply swap_perm.
Qed.

Lemma shuffle_perm (x : list A) (s : rng) : (shuffle x s).1 ≡ₚ x.
Proof. apply shuffle_from_perm. Qed.

Lemma shuffle_length (x : list A) (s : rng) :
  length (shuffle x s).1 = length x.
Proof. by rewrite shuffle_perm. Qed.

End Shuffle.

(** ** Strings and text files *)

Lemma utf8_char_len_range (c : N) (n : Z) :
  utf8_char_len c = Ok n -> 1 <= n <= 4.
Proof.
  unfold utf8_char_len.
  repeat match goal with |- context [if ?b then _ else _] => destruct b end;
    intros [=]; lia.
Qed.

Lemma encode_len_app (a b : line) :
  encode_len (a ++ b) = n ← encode_len a; m ← encode_len b; Ok (n + m).
Proof.
  induction a as [|c a IH]; simpl.
  - by destruct (encode_len b).
  - destruct (utf8_char_len c) as [k|]; simpl; [|done].
    rewrite IH. destruct (encode_len a) as [n|]; simpl; [|done].
    destruct (encode_len b) as [m|]; simpl; [|done].
    f_equal. lia.
Qed.

Lemma encode_len_nonneg (l : line) (n : Z) : encode_len l = Ok n -> 0 <= n.
Proof.
  revert n. induction l as [|c l IH]; simpl; intros n H.
  - injection H as <-. lia.
  - inv_bind H. inv_bind H. injection H as <-.
    apply utf8_char_len_range in Ha. specialize (IH _ Ha0). lia.
Qed.

Lemma encodable_len (l : line) : encodable l -> encode_len l = Ok (utf8_len l).
Proof. unfold encodable, utf8_len. by destruct (encode_len l). Qed.

Lemma encode_len_encodable (l : line) (n : Z) : encode_len l = Ok n -> encodable l.
Proof. unfold encodable. by intros ->. Qed.

Lemma utf8_len_nonneg (l : line) : 0 <= utf8_len l.
Proof.
  unfold utf8_len. destruct (encode_len l) eqn:H; [|lia].
  by eapply encode_len_nonneg.
Qed.

Lemma encodable_nil : encodable [].
Proof. done. Qed.

Lemma encodable_app (a b : line) : encodable (a ++ b) <-> encodable a /\ encodable b.
Proof.
  unfold encodable. rewrite encode_len_app.
  destruct (encode_len a), (encode_len b); simpl; intuition congruence.
Qed.

Lemma encodable_cons (c : N) (l : line) :
  encodable (c :: l) <-> encodable [c] /\ encodable l.
Proof. apply (encodable_app [c] l). Qed.

Lemma encodable_LF : encodable [LF].
Proof. done. Qed.

Lemma encodable_with_newline (l : line) : encodable l -> encodable (with_newline l).
Proof. intros. apply encodable_app. split; [done | apply encodable_LF]. Qed.

Lemma utf8_len_app (a b : line) :
  encodable a -> encodable b -> utf8_len (a ++ b) = utf8_len a + utf8_len b.
Proof.
  intros Ha Hb. unfold utf8_len at 1. rewrite encode_len_app.
  by rewrite (encodable_len a Ha), (encodable_len b Hb).
Qed.

Lemma utf8_len_with_newline (l : line) :
  encodable l -> utf8_len (with_newline l) = utf8_len l + 1.
Proof. intros. unfold with_newline. by rewrite utf8_len_app. Qed.

Lemma encodable_concat (ls : list line) :
  Forall encodable ls -> encodable (concat ls).
Proof.
  induction 1 as [|l ls Hl _ IH]; simpl; [done|].
  apply encodable_app. auto.
Qed.

Lemma utf8_len_concat (ls : list line) :
  Forall encodable ls -> utf8_len (concat ls) = total_len ls.
Proof.
  induction 1 as [|l ls Hl Hls IH]; simpl; [done|].
  rewrite utf8_len_app; auto using encodable_concat. by rewrite IH.
Qed.

Lemma total_len_app (xs ys : list line) :
  total_len (xs ++ ys) = total_len xs + total_len ys.
Proof. induction xs as [|x xs IH]; simpl; lia. Qed.

Lemma total_len_perm (xs ys : list line) : xs ≡ₚ ys -> total_len xs = total_len ys.
Proof. induction 1; simpl; lia. Qed.

Lemma join_app (g1 g2 : list line) : join (g1 ++ g2) = join g1 ++ join g2.
Proof. unfold join. by rewrite fmap_app, concat_app. Qed.

Lemma join_snoc (g : list line) (l : line) : join (g ++ [l]) = join g ++ l ++ [LF].
Proof. rewrite join_app. unfold join at 2; simpl. by rewrite app_nil_r. Qed.

Lemma encodable_join (g : list line) : Forall encodable g -> encodable (join g).
Proof.
  intros H. apply encodable_concat, Forall_fmap.
  eapply Forall_impl; [done|]. apply encodable_with_newline.
Qed.

(** Reading back what was written gives the lines written, each with its
    ["\n"], when no line holds a line ending of its own. *)
Lemma readlines_from_line (cur l rest : line) :
  newline_free l ->
  readlines_from cur (l ++ LF :: rest) = (rev cur ++ l ++ [LF]) :: readlines_from [] rest.
Proof.
  intros [Hlf Hcr]. revert cur. induction l as [|c l IH]; intros cur; simpl.
  - done.
  - apply not_elem_of_cons in Hlf as [Hc1 Hlf], Hcr as [Hc2 Hcr].
    destruct (N.eqb_spec c LF); [congruence|].
    destruct (N.eqb_spec c CR); [congruence|].
    rewrite IH by done. simpl. by rewrite <- app_assoc.
Qed.

Lemma readlines_join (g : list line) :
  Forall newline_free g -> readlines (join g) = with_newline <$> g.
Proof.
  unfold readlines. induction 1 as [|l g Hl _ IH]; [done|].
  change (join (l :: g)) with ((l ++ [LF]) ++ join g).
  rewrite <- app_assoc. simpl. rewrite readlines_from_line by done.
  simpl. by rewrite IH.
Qed.

(** What is read back can be encoded when the file can. *)
Lemma readlines_from_encodable (cur content : line) :
  encodable cur -> encodable content ->
  Forall encodable (readlines_from cur content).
Proof.
  assert (Hrev : forall l : line, encodable l -> encodable (rev l)).
  { induction l as [|c l IH]; simpl; [done|].
    intros [? ?]%encodable_cons. apply encodable_app. auto. }
  assert (Hlf : forall l : line, encodable l -> encodable (rev (LF :: l))).
  { intros l Hl. apply Hrev. apply encodable_cons. split; [apply encodable_LF|done]. }
  remember (length content) as n eqn:Hn. revert content Hn cur.
  induction n as [n IH] using lt_wf_ind.
  intros [|c rest] Hn cur Hcur Hcontent; simpl in *; subst n.
  - destruct cur; repeat constructor. by apply Hrev.
  - apply encodable_cons in Hcontent as [Hc Hrest].
    destruct (c =? LF)%N.
    { constructor; [by apply Hlf|]. eapply IH; [|done..]. lia. }
    destruct (c =? CR)%N.
    + destruct rest as [|c' rest'].
      * constructor; [by apply Hlf|]. repeat constructor.
      * pose proof Hrest as Hrest'. apply encodable_cons in Hrest' as [? ?].
        destruct (c' =? LF)%N.
        -- constructor; [by apply Hlf|]. eapply IH; [|done..]. simpl; lia.
        -- constructor; [by apply Hlf|]. eapply IH; [|done..]. simpl; lia.
    + eapply IH; [|done| |done]; [lia|]. apply encodable_cons. by split.
Qed.

Lemma readlines_encodable (content : line) :
  encodable content -> Forall encodable (readlines content).
Proof. apply readlines_from_encodable, encodable_nil. Qed.

(** ** [shuffle_with_max_lines] *)

Section WithMaxLinesFacts.

Context {R : SeededRng}.
Variables (seed : string) (max_lines max_words_in_sentence total_byte_size : Z).

Local Abbreviation fill_step := (fill_body max_lines max_words_in_sentence).
Local Abbreviation sample_step := (sample_body max_lines total_byte_size).
Local Abbreviation dropped := (too_long max_words_in_sentence).
Local Abbreviation survivors := (kept max_words_in_sentence).

Lemma kept_snoc (pre : list line) (l : line) :
  survivors (pre ++ [l]) = survivors pre ++ (if dropped l then [] else [l]).
Proof.
  unfold kept. rewrite filter_app. f_equal.
  destruct (dropped l) eqn:H.
  - rewrite filter_cons_False; [done|]. by rewrite H.
  - rewrite filter_cons_True; done.
Qed.

Lemma kept_sublist (ls : list line) : survivors ls ⊆+ ls.
Proof. apply sublist_submseteq, sublist_filter. Qed.

(** What one iteration of the first loop does. *)
Lemma fill_body_inv (st : fill_state) (l : line) (f : flow fill_state) :
  fill_step st l = Ok f ->
  match f with
  | Continue st' =>
      dropped l = true /\ fill_lines st' = fill_lines st \/
      dropped l = false /\ fill_lines st' = fill_lines st ++ [l] /\
        Z.of_nat (length (fill_lines st')) <> max_lines
  | Break st' =>
      dropped l = false /\ fill_lines st' = fill_lines st ++ [l] /\
        Z.of_nat (length (fill_lines st')) = max_lines
  end.
Proof.
  unfold fill_body, too_long. intros H. inv_bind H.
  destruct (_ >? _); [injection H as <-; auto|].
  destruct (Z.eqb_spec (Z.of_nat (length (fill_lines st ++ [l]))) max_lines);
    injection H as <-; simpl; auto.
Qed.

Lemma fill_body_ok (st : fill_state) (l : line) :
  encodable l -> exists f, fill_step st l = Ok f.
Proof.
  intros Hl. unfold fill_body. rewrite (encodable_len l Hl); simpl.
  repeat match goal with |- context [if ?b then _ else _] => destruct b end; eauto.
Qed.

(** The first loop: the reservoir holds the lines of the consumed part of the
    stream that pass the filter; the loop stops at the end of the stream or
    with [max_lines] lines in the reservoir. *)
Lemma fill_spec (line_stream rest : list line) (st : fill_state) :
  for_in fill_step fill_init line_stream = Ok (st, rest) ->
  exists pre, line_stream = pre ++ rest /\ fill_lines st = survivors pre /\
    (rest = [] /\ (0 < max_lines -> Z.of_nat (length (fill_lines st)) < max_lines) \/
     Z.of_nat (length (fill_lines st)) = max_lines /\
       exists pre' x, pre = pre' ++ [x] /\ dropped x = false).
Proof.
  intros Hrun.
  unshelve epose proof (for_in_inv fill_step
    (fun pre st => fill_lines st = survivors pre /\
       (0 < max_lines -> Z.of_nat (length (fill_lines st)) < max_lines))
    (fun pre st => fill_lines st = survivors pre /\
       Z.of_nat (length (fill_lines st)) = max_lines /\
       exists pre' x, pre = pre' ++ [x] /\ dropped x = false)
    line_stream _ _ _ _ _ _ Hrun) as (pre & Hpre & H).
  - intros pre x post s s' _ [Hl Hlen] Hbody.
    apply fill_body_inv in Hbody as [[Hx ->]|(Hx & Hs' & Hne)];
      rewrite kept_snoc, Hx.
    + by rewrite app_nil_r.
    + rewrite Hs' in *. rewrite <- Hl. split; [done|].
      rewrite length_app in *; simpl in *. lia.
  - intros pre x post s s' _ [Hl Hlen] Hbody.
    apply fill_body_inv in Hbody as (Hx & Hs' & Heq).
    rewrite kept_snoc, Hx, <- Hl. eauto 10.
  - simpl. split; [done | lia].
  - exists pre. destruct H as [[[? ?] ?]|[? ?]]; auto.
Qed.

Lemma fill_ok (line_stream : list line) (st0 : fill_state) :
  Forall encodable line_stream ->
  exists r, for_in fill_step st0 line_stream = Ok r.
Proof.
  intros Henc.
  unshelve epose proof (for_in_total fill_step (fun _ _ => True)
    (fun _ _ => True) line_stream _ st0 I) as (st' & pre & rest & Hrun & _);
    [|eauto].
  intros pre x post st Hxs _.
  assert (encodable x) as Hx.
  { rewrite Hxs in Henc. apply Forall_app in Henc as [_ H]. by inversion H. }
  destruct (fill_body_ok st x Hx) as [f Hf]. exists f. split; [done|].
  by destruct f.
Qed.

(** What one iteration of the second loop does: it never leaves the loop, and
    it keeps the reservoir or shifts the line in at the right and the oldest
    line out at the left. *)
Lemma sample_body_inv (st : sample_state) (l : line) (f : flow sample_state) :
  sample_step st l = Ok f ->
  exists st', f = Continue st' /\
    (sample_lines st' = sample_lines st \/
     exists old tl, sample_lines st = old :: tl /\ sample_lines st' = tl ++ [l]).
Proof.
  unfold sample_body. intros H. do 4 inv_bind H.
  destruct (random (sample_random st)) as [r s].
  destruct (negb _).
  - inv_bind H. injection H as <-. eexists; split; [done|]. right.
    destruct (sample_lines st) as [|old tl]; [done|].
    injection Ha3 as <-. eauto.
  - injection H as <-. eexists; split; [done|]. by left.
Qed.

(** The second loop keeps the number of lines in the reservoir. *)
Lemma sample_body_length (st st' : sample_state) (l : line) :
  sample_step st l = Ok (Continue st') ->
  length (sample_lines st') = length (sample_lines st).
Proof.
  intros H. apply sample_body_inv in H as (? & [= <-] & [->|(old & tl & -> & ->)]).
  - done.
  - rewrite length_app; simpl. lia.
Qed.

(** The second loop only holds lines of the stream. *)
Lemma sample_spec (base rest rest' : list line) (st st' : sample_state) :
  sample_lines st ⊆+ base ->
  for_in sample_step st rest = Ok (st', rest') ->
  rest' = [] /\ sample_lines st' ⊆+ base ++ rest /\
  length (sample_lines st') = length (sample_lines st).
Proof.
  intros Hbase Hrun.
  unshelve epose proof (for_in_inv sample_step
    (fun pre s => sample_lines s ⊆+ base ++ pre /\
       length (sample_lines s) = length (sample_lines st))
    (fun _ _ => False) rest _ _ _ _ _ _ Hrun) as (pre & Hpre & H).
  - intros pre x post s s' _ [Hs Hlen] Hbody.
    split; [|by rewrite (sample_body_length _ _ _ Hbody)].
    apply sample_body_inv in Hbody as (? & [= <-] & [->|(old & tl & Hold & ->)]).
    + rewrite Hs, app_assoc. by apply submseteq_inserts_r.
    + rewrite app_assoc. apply submseteq_app; [|done].
      rewrite <- Hs, Hold. by apply submseteq_cons.
  - intros pre x post s s' _ _ Hbody.
    apply sample_body_inv in Hbody as (? & [=] & _).
  - simpl. by rewrite app_nil_r.
  - destruct H as [[[? ?] ->]|[]]. rewrite app_nil_r in Hpre. by subst.
Qed.

(** When the first loop reaches the end of the stream, the function returns
    the lines that pass the filter, shuffled. *)
Lemma shuffle_with_max_lines_exhausts (line_stream : list line) :
  Forall encodable line_stream ->
  (forall pre x post, line_stream = pre ++ x :: post -> dropped x = false ->
     Z.of_nat (length (survivors (pre ++ [x]))) <> max_lines) ->
  exists r,
    shuffle_with_max_lines line_stream seed max_lines max_words_in_sentence
      total_byte_size = Ok r /\
    r ≡ₚ survivors line_stream.
Proof.
  intros Henc Hnever.
  destruct (fill_ok line_stream fill_init Henc) as [[st rest] Hfill].
  destruct (fill_spec _ _ _ Hfill) as (pre & Hpre & Hlines & [[-> _]|[Hlen Hlast]]).
  - rewrite app_nil_r in Hpre. subst pre.
    unfold shuffle_with_max_lines. rewrite Hfill. simpl.
    eexists. split; [done|].
    unfold sample_init. destruct (shuffle (fill_lines st) (Random seed)) as [ls s] eqn:Hs.
    simpl. rewrite shuffle_perm.
    change ls with (ls, s).1. rewrite <- Hs, shuffle_perm. by rewrite Hlines.
  - destruct Hlast as (pre' & x & -> & Hx).
    exfalso. eapply (Hnever pre' x rest); [|done|].
    + by rewrite Hpre, <- app_assoc.
    + by rewrite <- Hlines.
Qed.

(** In every case the function returns lines of the stream, none more often
    than the stream has it. *)
Lemma shuffle_with_max_lines_sample (line_stream r : list line) :
  shuffle_with_max_lines line_stream seed max_lines max_words_in_sentence
    total_byte_size = Ok r ->
  r ⊆+ line_stream.
Proof.
  unfold shuffle_with_max_lines. intros H.
  inv_bind H. destruct a as [st rest]. inv_bind H. destruct a as [st' rest'].
  injection H as <-.
  destruct (fill_spec _ _ _ Ha) as (pre & -> & Hlines & _).
  apply (sample_spec pre) in Ha0 as (_ & Hsub & _).
  - by rewrite shuffle_perm.
  - unfold sample_init.
    destruct (shuffle (fill_lines st) (Random seed)) as [ls s] eqn:Hs. simpl.
    change ls with (ls, s).1. rewrite <- Hs, shuffle_perm, Hlines.
    apply kept_sublist.
Qed.

(** With [max_lines] at least one, the reservoir never holds more lines. *)
Lemma reservoir_history_bound (line_stream : list line) :
  1 <= max_lines ->
  Forall (fun lines => Z.of_nat (length lines) <= max_lines)
    (reservoir_history line_stream seed max_lines max_words_in_sentence
       total_byte_size).
Proof.
  intros Hmax. unfold reservoir_history. apply Forall_app. split.
  - apply Forall_fmap.
    eapply Forall_impl;
      [apply (for_in_states_Forall fill_step
         (fun st => Z.of_nat (length (fill_lines st)) < max_lines)
         (fun st => Z.of_nat (length (fill_lines st)) = max_lines))|].
    + intros st x st' Hlen Hbody.
      apply fill_body_inv in Hbody as [[_ ->]|(_ & Hs' & Hne)]; [done|].
      rewrite Hs', length_app in *; simpl in *. lia.
    + intros st x st' _ Hbody. by apply fill_body_inv in Hbody as (_ & _ & ?).
    + simpl. lia.
    + simpl. intros st [?|?]; lia.
  - destruct (for_in fill_step fill_init line_stream) as [[st rest]|] eqn:Hfill;
      [|constructor].
    apply Forall_fmap.
    assert (Z.of_nat (length (sample_lines (sample_init seed st))) <= max_lines) as Hinit.
    { unfold sample_init.
      destruct (shuffle (fill_lines st) (Random seed)) as [ls s] eqn:Hs. simpl.
      change ls with (ls, s).1. rewrite <- Hs, shuffle_length.
      destruct (fill_spec _ _ _ Hfill) as (_ & _ & _ & [[_ ?]|[? _]]); lia. }
    eapply Forall_impl;
      [apply (for_in_states_Forall sample_step
         (fun st => Z.of_nat (length (sample_lines st)) <= max_lines)
         (fun _ => False))|].
    + intros s x s' Hlen Hbody. by rewrite (sample_body_length _ _ _ Hbody).
    + intros s x s' _ Hbody. by apply sample_body_inv in Hbody as (? & [=] & _).
    + done.
    + simpl. by intros s [?|[]].
Qed.

End WithMaxLinesFacts.

(** ** [shuffle_in_temp_files]: the chunks *)

Section ChunkFacts.

Variables (chunk_bytes : Z) (chunk_dir : gmap nat line).

Local Abbreviation chunk_step := (chunk_body chunk_bytes).

(** What one iteration of the loop does, on a line that can be encoded. *)
Lemma chunk_body_eq (st : chunk_state) (l : line) :
  encodable l ->
  chunk_step st l = Ok (Continue
    (if bytes_written_to_chunk st + (utf8_len l + 1) >? chunk_bytes
     then {| chunk_files :=
               write (open_wt (chunk_files st) (chunk_index st + 1))
                 (chunk_index st + 1) (l ++ [LF]);
             chunk_index := chunk_index st + 1;
             bytes_written_to_chunk := 0 + (utf8_len l + 1) |}
     else {| chunk_files := write (chunk_files st) (chunk_index st) (l ++ [LF]);
             chunk_index := chunk_index st;
             bytes_written_to_chunk :=
               bytes_written_to_chunk st + (utf8_len l + 1) |})).
Proof.
  intros Hl. unfold chunk_body. rewrite (encodable_len l Hl). simpl.
  by destruct (_ >? _).
Qed.

Lemma chunk_inv_init : (chunk_inv chunk_bytes chunk_dir) [] (chunk_init chunk_dir).
Proof.
  exists [], []. simpl. split_and!; [done|done| | |done|].
  - intros [|i] g'; simpl; [|done]. intros [= <-].
    unfold open_wt. by rewrite lookup_insert_eq.
  - intros i Hi. unfold open_wt. rewrite lookup_insert_ne; [done|lia].
  - intros Hcb. constructor; [|constructor]. by left.
Qed.

Lemma total_len_with_newline_snoc (g : list line) (l : line) :
  encodable l ->
  total_len (with_newline <$> (g ++ [l])) =
  total_len (with_newline <$> g) + (utf8_len l + 1).
Proof.
  intros Hl. rewrite fmap_app, total_len_app. simpl.
  rewrite utf8_len_with_newline by done. lia.
Qed.

Lemma chunk_inv_step (pre : list line) (st : chunk_state) (l : line) :
  encodable l -> (chunk_inv chunk_bytes chunk_dir) pre st ->
  exists st', chunk_step st l = Ok (Continue st') /\ (chunk_inv chunk_bytes chunk_dir) (pre ++ [l]) st'.
Proof.
  intros Hl (gs & g & Hidx & Hcat & Hfiles & Hrest & Hbytes & Hok).
  rewrite (chunk_body_eq st l Hl). eexists; split; [done|].
  destruct (Z.gtb_spec (bytes_written_to_chunk st + (utf8_len l + 1)) chunk_bytes)
    as [Hover|Hfits].
  - (* a new chunk is started *)
    exists (gs ++ [g]), [l]. simpl. split_and!.
    + rewrite length_app; simpl. lia.
    + by rewrite concat_app, Hcat.
    + intros i g' Hi. unfold write, open_wt.
      destruct (decide (i = chunk_index st + 1)%nat) as [->|Hne].
      * rewrite lookup_alter_eq, lookup_insert_eq. simpl.
        rewrite lookup_app_r in Hi by (rewrite length_app; simpl; lia).
        rewrite length_app, Hidx in Hi; simpl in Hi.
        replace (length gs + 1 - (length gs + 1))%nat with 0%nat in Hi by lia.
        injection Hi as <-. unfold join, with_newline; simpl.
        by rewrite app_nil_r.
      * rewrite lookup_alter_ne, lookup_insert_ne by done.
        apply Hfiles. apply lookup_lt_Some in Hi as Hlt.
        rewrite !length_app in Hlt; simpl in Hlt.
        rewrite lookup_app_l in Hi; [done|]. rewrite length_app; simpl. lia.
    + intros i Hi. rewrite length_app in Hi; simpl in Hi.
      unfold write, open_wt.
      rewrite lookup_alter_ne, lookup_insert_ne by lia. apply Hrest. lia.
    + rewrite utf8_len_with_newline by done. lia.
    + intros Hcb. apply Forall_app. split; [auto|].
      constructor; [|constructor].
      destruct (decide (utf8_len l + 1 <= chunk_bytes)).
      * left. simpl. rewrite utf8_len_with_newline by done. lia.
      * right. exists l. split; [done|]. simpl.
        rewrite utf8_len_with_newline by done. lia.
  - (* the line goes to the open chunk *)
    exists gs, (g ++ [l]). simpl. split_and!.
    + done.
    + rewrite concat_app in *. simpl in *. rewrite app_nil_r in *.
      by rewrite app_assoc, Hcat.
    + intros i g' Hi. unfold write.
      destruct (decide (i = chunk_index st)) as [->|Hne].
      * rewrite lookup_alter_eq, (Hfiles (chunk_index st) g); simpl.
        -- rewrite Hidx, list_lookup_middle in Hi by done.
           injection Hi as <-. by rewrite join_snoc.
        -- by rewrite Hidx, list_lookup_middle.
      * rewrite lookup_alter_ne by done. apply Hfiles.
        apply lookup_lt_Some in Hi as Hlt.
        rewrite length_app in Hlt; simpl in Hlt.
        rewrite lookup_app_l in Hi by lia. rewrite lookup_app_l; [done|lia].
    + intros i Hi. unfold write. rewrite lookup_alter_ne by lia. by apply Hrest.
    + by rewrite total_len_with_newline_snoc, Hbytes.
    + intros Hcb. specialize (Hok Hcb). apply Forall_app in Hok as [Hgs _].
      apply Forall_app. split; [done|]. constructor; [|constructor]. left.
      rewrite total_len_with_newline_snoc, <- Hbytes by done. lia.
Qed.

(** The first stage on a stream that can be encoded: the stream is cut into
    the groups [gs], one per chunk file. *)
Lemma write_chunks_spec (line_stream : list line) :
  Forall encodable line_stream ->
  exists st gs,
    for_in chunk_step (chunk_init chunk_dir) line_stream = Ok (st, []) /\
    length gs = S (chunk_index st) /\
    concat gs = line_stream /\
    (forall i g, gs !! i = Some g -> chunk_files st !! i = Some (join g)) /\
    (forall i, (length gs <= i)%nat -> chunk_files st !! i = chunk_dir !! i) /\
    (0 <= chunk_bytes -> Forall (chunk_ok chunk_bytes) gs).
Proof.
  intros Henc.
  unshelve epose proof (for_in_total chunk_step (chunk_inv chunk_bytes chunk_dir) (fun _ _ => False)
    line_stream _ (chunk_init chunk_dir) chunk_inv_init)
    as (st & pre & rest & Hrun & Hpre & H).
  { intros pre x post st Hxs Hinv.
    assert (encodable x) as Hx.
    { rewrite Hxs in Henc. apply Forall_app in Henc as [_ H]. by inversion H. }
    destruct (chunk_inv_step pre st x Hx Hinv) as (st' & ? & ?).
    by exists (Continue st'). }
  destruct H as [[Hinv ->]|[]]. rewrite app_nil_r in Hpre. subst pre.
  destruct Hinv as (gs & g & Hidx & Hcat & Hfiles & Hrest & _ & Hok).
  exists st, (gs ++ [g]). split_and!; try done.
  - rewrite length_app; simpl. lia.
  - intros i Hi. rewrite length_app in Hi; simpl in Hi. apply Hrest. lia.
Qed.

End ChunkFacts.

(** ** [shuffle_in_temp_files]: the buckets *)

Section BucketFacts.

Context {R : SeededRng}.
Variables (output : list line) (bucket_bytes : Z) (keep_chunks : bool).

Local Abbreviation bucket_step := (bucket_body bucket_bytes).
Local Abbreviation read_step := (read_body bucket_bytes keep_chunks).

(** What one iteration of the inner loop does, on a line that can be
    encoded. *)
Lemma bucket_body_eq (b : bucket_state) (l : line) :
  encodable l ->
  bucket_step b l = Ok (Continue
    (if bytes_in_bucket b + utf8_len l >? bucket_bytes
     then
       let sh := shuffle (bucket b ++ [l]) (bucket_random b) in
       {| bucket := []; bytes_in_bucket := 0;
          bucket_count := bucket_count b + 1;
          sink := sink b ++ sh.1;
          bucket_random := sh.2;
          flushed := flushed b ++ [sh.1] |}
     else
       {| bucket := bucket b ++ [l];
          bytes_in_bucket := bytes_in_bucket b + utf8_len l;
          bucket_count := bucket_count b;
          sink := sink b;
          bucket_random := bucket_random b;
          flushed := flushed b |})).
Proof.
  intros Hl. unfold bucket_body. rewrite (encodable_len l Hl). simpl.
  destruct (_ >? _); [|done].
  by destruct (shuffle (bucket b ++ [l]) (bucket_random b)).
Qed.

Lemma bucket_inv_step (done : list line) (b : bucket_state) (l : line) :
  encodable l -> (bucket_inv output bucket_bytes) done b ->
  exists b', bucket_step b l = Ok (Continue b') /\ (bucket_inv output bucket_bytes) (done ++ [l]) b'.
Proof.
  intros Hl (Hsink & Hperm & Hbytes & Hfits & Hcount & Hover).
  rewrite (bucket_body_eq b l Hl). eexists; split; [done|].
  assert (total_len (bucket b ++ [l]) = bytes_in_bucket b + utf8_len l) as Hlen.
  { rewrite total_len_app, Hbytes. simpl. lia. }
  destruct (Z.gtb_spec (bytes_in_bucket b + utf8_len l) bucket_bytes) as [Hgt|Hle].
  - pose proof (shuffle_perm (bucket b ++ [l]) (bucket_random b)) as Hsh.
    set (sh := shuffle (bucket b ++ [l]) (bucket_random b)) in *.
    unfold bucket_inv; simpl. split_and!.
    + by rewrite concat_app, Hsink, <- app_assoc; simpl; rewrite app_nil_r.
    + rewrite concat_app; simpl. rewrite !app_nil_r, Hsh, app_assoc.
      by rewrite Hperm.
    + done.
    + by left.
    + rewrite length_app; simpl. lia.
    + apply Forall_app. split; [done|]. constructor; [|constructor].
      split.
      * rewrite (total_len_perm _ _ Hsh). lia.
      * exists l, (bucket b). split; [done|].
        destruct Hfits as [?|?]; [by left|right; lia].
  - unfold bucket_inv; simpl. split_and!; try done.
    + by rewrite app_assoc, Hperm.
    + by right.
Qed.

(** The inner loop reads every line and keeps the invariant. *)
Lemma bucket_loop_spec (done lines : list line) (b : bucket_state) :
  Forall encodable lines -> (bucket_inv output bucket_bytes) done b ->
  exists b', for_in bucket_step b lines = Ok (b', []) /\
    (bucket_inv output bucket_bytes) (done ++ lines) b'.
Proof.
  intros Henc Hinv.
  unshelve epose proof (for_in_total bucket_step
    (fun pre s => (bucket_inv output bucket_bytes) (done ++ pre) s) (fun _ _ => False)
    lines _ b _) as (b' & pre & rest & Hrun & Hpre & H).
  { intros pre x post s Hxs Hs.
    assert (encodable x) as Hx.
    { rewrite Hxs in Henc. apply Forall_app in Henc as [_ H]. by inversion H. }
    destruct (bucket_inv_step _ s x Hx Hs) as (s' & ? & ?).
    exists (Continue s'). by rewrite app_assoc. }
  { simpl. by rewrite app_nil_r. }
  destruct H as [[Hb' ->]|[]]. rewrite app_nil_r in Hpre. subst pre. eauto.
Qed.

Lemma read_inv_step (gs : list (list line)) (pre : list nat) (x : nat)
  (st : read_state) :
  Forall (Forall encodable) gs -> (x < length gs)%nat -> x ∉ pre ->
  (read_inv output bucket_bytes keep_chunks) gs pre st ->
  exists st', read_step st x = Ok (Continue st') /\ (read_inv output bucket_bytes keep_chunks) gs (pre ++ [x]) st'.
Proof.
  intros Henc Hx Hnew [Hfiles Hbucket].
  destruct (lookup_lt_is_Some_2 gs x Hx) as [g Hg].
  pose proof (Hfiles x g Hg (or_intror Hnew)) as Hfile.
  assert (Forall encodable (chunk_lines gs x)) as Hlines.
  { unfold chunk_lines. rewrite Hg. simpl.
    apply readlines_encodable, encodable_join.
    by eapply Forall_lookup_1 in Henc. }
  destruct (bucket_loop_spec _ _ _ Hlines Hbucket) as (b' & Hrun & Hb').
  unfold read_body, open_r, remove. rewrite Hfile. simpl.
  unfold chunk_lines in Hrun. rewrite Hg in Hrun. simpl in Hrun.
  rewrite Hrun. simpl.
  assert ((bucket_inv output bucket_bytes) ((pre ++ [x]) ≫= chunk_lines gs) b') as Hb''.
  { by rewrite bind_app, bind_singleton. }
  destruct keep_chunks eqn:Hkeep; simpl.
  - eexists; split; [done|]. split; [|done]. simpl.
    intros i g' Hi _. apply Hfiles; auto.
  - eexists; split; [done|]. split; [|done]. simpl.
    intros i g' Hi [?|Hi']; [congruence|].
    apply not_elem_of_app in Hi' as [Hi1 Hi2].
    apply not_elem_of_cons in Hi2 as [Hne _].
    rewrite lookup_delete_ne by done. apply Hfiles; auto.
Qed.

(** The outer loop reads every chunk once. *)
Lemma read_loop_spec (gs : list (list line)) (indexes : list nat)
  (st : read_state) :
  Forall (Forall encodable) gs -> NoDup indexes ->
  (forall x, x ∈ indexes -> (x < length gs)%nat) ->
  (read_inv output bucket_bytes keep_chunks) gs [] st ->
  exists st', for_in read_step st indexes = Ok (st', []) /\
    (read_inv output bucket_bytes keep_chunks) gs indexes st'.
Proof.
  intros Henc Hnodup Hrange Hinv.
  unshelve epose proof (for_in_total read_step ((read_inv output bucket_bytes keep_chunks) gs) (fun _ _ => False)
    indexes _ st Hinv) as (st' & pre & rest & Hrun & Hpre & H).
  { intros pre x post s Hxs Hs.
    destruct (read_inv_step gs pre x s) as (s' & ? & ?); auto.
    - apply Hrange. rewrite Hxs. apply elem_of_app. right. by left.
    - rewrite Hxs in Hnodup. apply NoDup_app in Hnodup as (_ & Hnot & _).
      intros Hin. apply (Hnot x Hin). by left.
    - by exists (Continue s'). }
  destruct H as [[Hst' ->]|[]]. rewrite app_nil_r in Hpre. subst pre. eauto.
Qed.

(** The bucket left over is within the budget. *)
Lemma flush_last_spec (done : list line) (b : bucket_state) :
  (bucket_inv output bucket_bytes) done b ->
  sink (flush_last b) = output ++ concat (flushed (flush_last b)) /\
  concat (flushed (flush_last b)) ≡ₚ done /\
  bucket_count (flush_last b) = bucket_count b /\
  exists last, flushed (flush_last b) = flushed b ++ last /\
    (last = [] \/ exists fb, last = [fb] /\ fb <> [] /\ total_len fb <= bucket_bytes).
Proof.
  intros (Hsink & Hperm & Hbytes & Hfits & Hcount & Hover).
  unfold flush_last. destruct (bucket b) as [|l ls] eqn:Hb.
  - rewrite app_nil_r in Hperm. split_and!; try done.
    exists []. rewrite app_nil_r. auto.
  - pose proof (shuffle_perm (l :: ls) (bucket_random b)) as Hsh.
    destruct (shuffle (l :: ls) (bucket_random b)) as [sh s]. simpl in *.
    split_and!; try done.
    + by rewrite concat_app, Hsink, <- app_assoc; simpl; rewrite app_nil_r.
    + rewrite concat_app; simpl. by rewrite app_nil_r, Hsh.
    + exists [sh]. split; [done|]. right. exists sh. split_and!; [done| |].
      * intros ->. by apply Permutation_nil_cons in Hsh.
      * rewrite (total_len_perm _ _ Hsh). destruct Hfits as [?|?]; [done|].
        simpl in *. lia.
Qed.

End BucketFacts.

(** ** [shuffle_in_temp_files]: the whole function *)

Lemma Forall_concat_inv {A} (P : A -> Prop) (ls : list (list A)) :
  Forall P (concat ls) -> Forall (Forall P) ls.
Proof.
  induction ls as [|l ls IH]; simpl; [constructor|].
  intros [? ?]%Forall_app. constructor; auto.
Qed.

Lemma seq_bind_lookup (gs : list (list line)) (f : list line -> list line) :
  seq 0 (length gs) ≫= (fun i => f (default [] (gs !! i))) = gs ≫= f.
Proof.
  induction gs as [|g gs IH]; [done|].
  simpl length. rewrite <- cons_seq, <- fmap_S_seq, !bind_cons, list_fmap_bind.
  simpl. by rewrite <- IH.
Qed.

Lemma readlines_groups (gs : list (list line)) :
  Forall newline_free (concat gs) ->
  gs ≫= (fun g => readlines (join g)) = with_newline <$> concat gs.
Proof.
  induction gs as [|g gs IH]; [done|].
  simpl concat. intros [Hg Hgs]%Forall_app.
  by rewrite bind_cons, fmap_app, readlines_join, IH.
Qed.

Section InTempFilesFacts.

Context {R : SeededRng}.
Variables (output : list line) (seed : string).
Variables (chunk_bytes bucket_bytes : Z).
Variables (chunk_dir : gmap nat line) (keep_chunks : bool).

(** On a stream that can be encoded the function returns. The stream is cut
    into groups, one per chunk; what is written is read back from the chunks;
    the buckets written on overflow come first, the bucket left over last. *)
Lemma shuffle_in_temp_files_spec (line_stream : list line) :
  Forall encodable line_stream ->
  exists o gs over last,
    shuffle_in_temp_files line_stream output seed chunk_bytes bucket_bytes
      chunk_dir keep_chunks = Ok o /\
    concat gs = line_stream /\
    out_output o = output ++ concat (out_flushed o) /\
    concat (out_flushed o) ≡ₚ gs ≫= (fun g => readlines (join g)) /\
    out_flushed o = over ++ last /\
    length over = out_bucket_count o /\
    Forall (overflowed bucket_bytes) over /\
    (last = [] \/
     exists fb, last = [fb] /\ fb <> [] /\ total_len fb <= bucket_bytes).
Proof.
  intros Henc.
  destruct (write_chunks_spec chunk_bytes chunk_dir line_stream Henc)
    as (st & gs & Hrun & Hlen & Hcat & Hfiles & _ & _).
  assert (Forall (Forall encodable) gs) as Hgs.
  { apply Forall_concat_inv. by rewrite Hcat. }
  unfold shuffle_in_temp_files, write_chunks. rewrite Hrun. simpl.
  unfold shuffled_chunk_indexes.
  pose proof (shuffle_perm (seq 0 (chunk_index st + 1)) (Random seed)) as Hsh.
  destruct (shuffle (seq 0 (chunk_index st + 1)) (Random seed))
    as [indexes random]. simpl in Hsh.
  replace (chunk_index st + 1)%nat with (length gs) in Hsh by lia.
  destruct (read_loop_spec output bucket_bytes keep_chunks gs indexes
              (read_init output st random)) as (st' & Hread & _ & Hbucket).
  - done.
  - rewrite Hsh. apply NoDup_seq.
  - intros x Hx. rewrite Hsh in Hx. apply elem_of_seq in Hx. lia.
  - split; [by intros i g Hi _; apply Hfiles|].
    unfold bucket_inv; simpl. rewrite app_nil_r. split_and!; try done.
    + by left.
  - rewrite Hread. simpl.
    destruct (flush_last_spec output bucket_bytes _ _ Hbucket)
      as (Hsink & Hperm & Hcount & last & Hflushed & Hlast).
    destruct Hbucket as (_ & _ & _ & _ & Hn & Hover).
    eexists _, gs, (flushed (read_bucket st')), last. simpl.
    split_and!; try done.
    + rewrite Hperm, Hsh. unfold chunk_lines.
      by rewrite (seq_bind_lookup gs (fun g => readlines (join g))).
    + by rewrite Hcount.
Qed.

(** What the function prints and returns. *)
Lemma shuffle_in_temp_files_return (line_stream : list line) (o : outcome) :
  shuffle_in_temp_files line_stream output seed chunk_bytes bucket_bytes
    chunk_dir keep_chunks = Ok o ->
  out_return o = PyNone /\
  out_stdout o =
    ["Shuffled with " +:+ pretty (out_bucket_count o) +:+ " buckets."].
Proof.
  unfold shuffle_in_temp_files. intros H. inv_bind H.
  destruct (shuffled_chunk_indexes seed a) as [indexes random].
  inv_bind H. destruct a0 as [st rest]. by injection H as <-.
Qed.

End InTempFilesFacts.

(** ** Two calls of [shuffle_in_temp_files]

    Two calls on the same stream, seed and budgets, in directories and with
    sinks that may differ, go through states that differ in nothing the
    function reads. *)

Section TwoCalls.

Context {R : SeededRng}.
Variables (output1 output2 : list line) (seed : string).
Variables (chunk_bytes bucket_bytes : Z) (keep_chunks : bool).

Lemma chunk_body_rel (st1 st2 : chunk_state) (l : line) :
  chunk_rel st1 st2 ->
  flow_rel chunk_rel (chunk_body chunk_bytes st1 l) (chunk_body chunk_bytes st2 l).
Proof.
  intros (Hidx & Hbytes & Hfiles). unfold chunk_body.
  destruct (encode_len l) as [n|e]; simpl; [|done].
  rewrite <- Hbytes.
  destruct (_ >? _); unfold chunk_rel, write, open_wt; simpl;
    rewrite <- Hidx; (split_and!; [done|lia|]); intros i Hi.
  - destruct (decide (i = chunk_index st1 + 1)%nat) as [->|Hne].
    + by rewrite !lookup_alter_eq, !lookup_insert_eq.
    + rewrite !lookup_alter_ne, !lookup_insert_ne by done. apply Hfiles. lia.
  - destruct (decide (i = chunk_index st1)) as [->|Hne].
    + by rewrite !lookup_alter_eq, Hfiles.
    + rewrite !lookup_alter_ne by done. by apply Hfiles.
Qed.

Lemma bucket_body_rel (b1 b2 : bucket_state) (l : line) :
  (bucket_rel output1 output2) b1 b2 ->
  flow_rel (bucket_rel output1 output2) (bucket_body bucket_bytes b1 l) (bucket_body bucket_bytes b2 l).
Proof.
  intros (Hb & Hbytes & Hcount & Hrandom & Hflushed & w & Hw1 & Hw2).
  unfold bucket_body.
  destruct (encode_len l) as [n|e]; simpl; [|done].
  rewrite <- Hb, <- Hbytes, <- Hrandom.
  destruct (_ >? _).
  - destruct (shuffle (bucket b1 ++ [l]) (bucket_random b1)) as [sh s].
    unfold bucket_rel; simpl. split_and!; try done; try congruence.
    exists (w ++ sh). by rewrite Hw1, Hw2, !app_assoc.
  - unfold bucket_rel; simpl. split_and!; try done. eauto.
Qed.

Lemma read_body_rel (n x : nat) (st1 st2 : read_state) :
  (x < n)%nat -> (read_rel output1 output2) n st1 st2 ->
  flow_rel ((read_rel output1 output2) n) (read_body bucket_bytes keep_chunks st1 x)
    (read_body bucket_bytes keep_chunks st2 x).
Proof.
  intros Hx [Hfiles Hbucket]. unfold read_body, open_r, remove.
  rewrite <- (Hfiles x Hx).
  destruct (read_files st1 !! x) as [file|] eqn:Hfile; simpl; [|done].
  pose proof (for_in_rel (bucket_body bucket_bytes) (bucket_body bucket_bytes)
    (bucket_rel output1 output2) (readlines file) (fun y b1 b2 _ => bucket_body_rel b1 b2 y)
    _ _ Hbucket) as Hloop.
  unfold loop_rel in Hloop.
  destruct (for_in _ (read_bucket st1) _) as [[b1 rest1]|e1],
    (for_in _ (read_bucket st2) _) as [[b2 rest2]|e2]; simpl; try done.
  destruct Hloop as [Hb _].
  destruct keep_chunks; simpl; (split; [|done]); simpl; [done|].
  intros i Hi. destruct (decide (i = x)) as [->|Hne].
  - by rewrite !lookup_delete_eq.
  - rewrite !lookup_delete_ne by done. by apply Hfiles.
Qed.

Lemma flush_last_rel (b1 b2 : bucket_state) :
  (bucket_rel output1 output2) b1 b2 -> (bucket_rel output1 output2) (flush_last b1) (flush_last b2).
Proof.
  intros (Hb & Hbytes & Hcount & Hrandom & Hflushed & w & Hw1 & Hw2).
  unfold flush_last. rewrite <- Hb, <- Hrandom.
  destruct (bucket b1) as [|l ls] eqn:Hb1.
  { unfold bucket_rel. split_and!; try done; [congruence | eauto]. }
  destruct (shuffle (l :: ls) (bucket_random b1)) as [sh s].
  unfold bucket_rel; simpl. split_and!; try done; try congruence.
  exists (w ++ sh). by rewrite Hw1, Hw2, !app_assoc.
Qed.

(** The two calls show the same. *)
Lemma shuffle_in_temp_files_observable (line_stream : list line)
  (chunk_dir1 chunk_dir2 : gmap nat line) :
  observable output1
    (shuffle_in_temp_files line_stream output1 seed chunk_bytes bucket_bytes
       chunk_dir1 keep_chunks) =
  observable output2
    (shuffle_in_temp_files line_stream output2 seed chunk_bytes bucket_bytes
       chunk_dir2 keep_chunks).
Proof.
  unfold observable, shuffle_in_temp_files, write_chunks.
  assert (chunk_rel (chunk_init chunk_dir1) (chunk_init chunk_dir2)) as Hinit0.
  { unfold chunk_rel, chunk_init, open_wt; simpl.
    split_and!; try done. intros i Hi. replace i with 0%nat by lia.
    by rewrite !lookup_insert_eq. }
  pose proof (for_in_rel (chunk_body chunk_bytes) (chunk_body chunk_bytes)
    chunk_rel line_stream (fun l st1 st2 _ => chunk_body_rel st1 st2 l)
    _ _ Hinit0) as Hchunks.
  unfold loop_rel in Hchunks.
  destruct (for_in _ (chunk_init chunk_dir1) _) as [[st1 rest1]|e1],
    (for_in _ (chunk_init chunk_dir2) _) as [[st2 rest2]|e2]; simpl;
    try done; [|congruence].
  destruct Hchunks as [(Hidx & _ & Hfiles) _].
  unfold shuffled_chunk_indexes. rewrite <- Hidx.
  pose proof (shuffle_perm (seq 0 (chunk_index st1 + 1)) (Random seed)) as Hsh.
  destruct (shuffle (seq 0 (chunk_index st1 + 1)) (Random seed))
    as [indexes random]. simpl in Hsh.
  assert (forall x, x ∈ indexes -> (x < chunk_index st1 + 1)%nat) as Hrange.
  { intros x Hx. rewrite Hsh in Hx. apply elem_of_seq in Hx. lia. }
  assert ((read_rel output1 output2) (chunk_index st1 + 1) (read_init output1 st1 random)
            (read_init output2 st2 random)) as Hinit.
  { split; simpl.
    - intros i Hi. apply Hfiles. lia.
    - unfold bucket_rel; simpl. split_and!; try done.
      exists []. by rewrite !app_nil_r. }
  pose proof (for_in_rel (read_body bucket_bytes keep_chunks)
    (read_body bucket_bytes keep_chunks) ((read_rel output1 output2) (chunk_index st1 + 1)) indexes
    (fun x s1 s2 Hx => read_body_rel _ x s1 s2 (Hrange x Hx))
    _ _ Hinit) as Hread.
  unfold loop_rel in Hread.
  destruct (for_in _ (read_init output1 st1 random) _) as [[s1 r1]|e1],
    (for_in _ (read_init output2 st2 random) _) as [[s2 r2]|e2]; simpl;
    try done; [|congruence].
  destruct Hread as [[_ Hbucket] _].
  apply flush_last_rel in Hbucket
    as (_ & _ & Hcount & _ & _ & w & Hw1 & Hw2).
  by rewrite Hw1, Hw2, !drop_app_length, Hcount.
Qed.

End TwoCalls.

(** * The claims of the specification *)

Section Claims.

Context {R : SeededRng}.

(** ** Helpers *)

Lemma bind_Ok_eq {A B} (a : A) (k : A -> result B) : (Ok a ≫= k) = k a.
Proof. done. Qed.

(** With [max_lines] at least one, no more than [max_lines] lines are
    returned. *)
Lemma shuffle_with_max_lines_length (line_stream r : list line) (seed : string)
  (max_lines max_words_in_sentence total_byte_size : Z) :
  1 <= max_lines ->
  shuffle_with_max_lines line_stream seed max_lines max_words_in_sentence
    total_byte_size = Ok r ->
  Z.of_nat (length r) <= max_lines.
Proof.
  intros Hmax. unfold shuffle_with_max_lines. intros H.
  inv_bind H. destruct a as [st rest]. inv_bind H. destruct a as [st' rest'].
  injection H as <-. rewrite shuffle_length.
  apply (sample_spec _ _ (sample_lines (sample_init seed st))) in Ha0
    as (_ & _ & ->); [|done].
  unfold sample_init.
  destruct (shuffle (fill_lines st) (Random seed)) as [ls s] eqn:Hs. simpl.
  change ls with (ls, s).1. rewrite <- Hs, shuffle_length.
  apply fill_spec in Ha as (_ & _ & _ & [[_ ?]|[? _]]); lia.
Qed.

(** With fewer than [max_lines] lines passing the filter, the first loop
    reaches the end of the stream. *)
Lemma shuffle_with_max_lines_fits (line_stream : list line) (seed : string)
  (max_lines max_words_in_sentence total_byte_size : Z) :
  Forall encodable line_stream ->
  Z.of_nat (length (kept max_words_in_sentence line_stream)) < max_lines ->
  exists r,
    shuffle_with_max_lines line_stream seed max_lines max_words_in_sentence
      total_byte_size = Ok r /\
    r ≡ₚ kept max_words_in_sentence line_stream.
Proof.
  intros Henc Hfew. apply shuffle_with_max_lines_exhausts; [done|].
  intros pre x post -> _.
  replace (pre ++ x :: post) with ((pre ++ [x]) ++ post) in Hfew
    by by rewrite <- app_assoc.
  unfold kept in *. rewrite (filter_app _ (pre ++ [x]) post), length_app in Hfew.
  lia.
Qed.

(** With [max_lines] zero or negative, the first loop never stops before the
    end of the stream: every line that passes the filter is returned. *)
Lemma shuffle_with_max_lines_unbounded (line_stream : list line) (seed : string)
  (max_lines max_words_in_sentence total_byte_size : Z) :
  Forall encodable line_stream ->
  max_lines <= 0 ->
  exists r,
    shuffle_with_max_lines line_stream seed max_lines max_words_in_sentence
      total_byte_size = Ok r /\
    r ≡ₚ kept max_words_in_sentence line_stream.
Proof.
  intros Henc Hmax. apply shuffle_with_max_lines_exhausts; [done|].
  intros pre x post _ Hx. rewrite kept_snoc, Hx, length_app. simpl. lia.
Qed.

(** The lines [shuffle_in_temp_files] writes are the lines of the stream,
    each with its ["\n"], when the lines hold no line ending. *)
Lemma shuffle_in_temp_files_writes (line_stream output : list line)
  (seed : string) (chunk_bytes bucket_bytes : Z) (chunk_dir : gmap nat line)
  (keep_chunks : bool) :
  Forall encodable line_stream -> Forall newline_free line_stream ->
  exists o w,
    shuffle_in_temp_files line_stream output seed chunk_bytes bucket_bytes
      chunk_dir keep_chunks = Ok o /\
    out_output o = output ++ w /\
    w ≡ₚ with_newline <$> line_stream.
Proof.
  intros Henc Hfree.
  destruct (shuffle_in_temp_files_spec output seed chunk_bytes bucket_bytes
              chunk_dir keep_chunks line_stream Henc)
    as (o & gs & _ & _ & Hrun & Hcat & Hout & Hperm & _).
  exists o, (concat (out_flushed o)). split_and!; [done..|].
  rewrite Hperm, readlines_groups by by rewrite Hcat. by rewrite Hcat.
Qed.

(** When the first loop reaches the end of the stream, or stops on its last
    line, the second loop has nothing to read: the function returns the
    lines that pass the filter, shuffled. *)
Lemma shuffle_with_max_lines_fill_only (line_stream : list line) (seed : string)
  (max_lines max_words_in_sentence total_byte_size : Z) :
  Forall encodable line_stream ->
  (forall pre x post, line_stream = pre ++ x :: post ->
     too_long max_words_in_sentence x = false ->
     Z.of_nat (length (kept max_words_in_sentence (pre ++ [x]))) = max_lines ->
     post = []) ->
  exists r,
    shuffle_with_max_lines line_stream seed max_lines max_words_in_sentence
      total_byte_size = Ok r /\
    r ≡ₚ kept max_words_in_sentence line_stream.
Proof.
  intros Henc Hend.
  destruct (fill_ok max_lines max_words_in_sentence line_stream fill_init Henc)
    as [[st rest] Hfill].
  destruct (fill_spec _ _ _ _ _ Hfill) as (pre & Hpre & Hlines & Hstop).
  assert (rest = []) as ->.
  { destruct Hstop as [[-> _]|[Hlen (pre' & x & -> & Hx)]]; [done|].
    apply (Hend pre' x rest); [by rewrite Hpre, <- app_assoc|done|].
    by rewrite <- Hlines. }
  rewrite app_nil_r in Hpre. subst pre.
  unfold shuffle_with_max_lines. rewrite Hfill. simpl.
  eexists. split; [done|].
  unfold sample_init.
  destruct (shuffle (fill_lines st) (Random seed)) as [ls s] eqn:Hs.
  simpl. rewrite shuffle_perm.
  change ls with (ls, s).1. rewrite <- Hs, shuffle_perm. by rewrite Hlines.
Qed.

(** A stream that ends with a line that passes the filter, the last of
    [max_lines] such lines: the first loop stops on the last line. *)
Lemma shuffle_with_max_lines_full (line_stream : list line) (seed : string)
  (max_lines max_words_in_sentence total_byte_size : Z) :
  Forall encodable line_stream ->
  Z.of_nat (length (kept max_words_in_sentence line_stream)) = max_lines ->
  (exists pre x, line_stream = pre ++ [x] /\
     too_long max_words_in_sentence x = false) ->
  exists r,
    shuffle_with_max_lines line_stream seed max_lines max_words_in_sentence
      total_byte_size = Ok r /\
    r ≡ₚ kept max_words_in_sentence line_stream.
Proof.
  intros Henc Hfull (pre0 & x0 & Hlast & Hx0).
  apply shuffle_with_max_lines_fill_only; [done|].
  intros pre x post Hcut Hx Hlen.
  destruct post as [|p post]; [done|]. exfalso.
  assert (x0 ∈ kept max_words_in_sentence (p :: post)) as Hin.
  { apply list_elem_of_filter. split; [done|].
    apply last_Some_elem_of.
    assert (last line_stream = Some x0) as Hl by by rewrite Hlast, last_snoc.
    by rewrite Hcut, last_app_cons, last_cons_cons in Hl. }
  assert (line_stream = (pre ++ [x]) ++ p :: post) as Hcut'
    by by rewrite Hcut, <- app_assoc.
  rewrite Hcut' in Hfull. unfold kept in Hfull, Hlen, Hin.
  rewrite filter_app, length_app in Hfull.
  destruct (filter _ (p :: post)); [by apply elem_of_nil in Hin|].
  simpl in Hfull. lia.
Qed.

(** With a budget of zero or less every line starts a chunk. *)
Lemma write_chunks_own (chunk_bytes : Z) (line_stream : list line)
  (st : chunk_state) :
  chunk_bytes <= 0 -> 0 <= bytes_written_to_chunk st ->
  Forall encodable line_stream ->
  exists st',
    for_in (chunk_body chunk_bytes) st line_stream = Ok (st', []) /\
    chunk_index st' = (chunk_index st + length line_stream)%nat /\
    (forall i l, line_stream !! i = Some l ->
       chunk_files st' !! (chunk_index st + 1 + i)%nat = Some (with_newline l)) /\
    (forall j, (j <= chunk_index st)%nat ->
       chunk_files st' !! j = chunk_files st !! j).
Proof.
  intros Hcb Hbytes Henc. revert st Hbytes.
  induction Henc as [|l ls Hl _ IH]; intros st Hbytes.
  - exists st. simpl. split_and!; [done|lia|done|done].
  - cbn [for_in]. rewrite (chunk_body_eq chunk_bytes st l Hl).
    pose proof (utf8_len_nonneg l) as Hlen.
    destruct (Z.gtb_spec (bytes_written_to_chunk st + (utf8_len l + 1))
                chunk_bytes) as [_|Hle]; [|lia].
    destruct (IH {|
      chunk_files := write (open_wt (chunk_files st) (chunk_index st + 1))
                       (chunk_index st + 1) (l ++ [LF]);
      chunk_index := chunk_index st + 1;
      bytes_written_to_chunk := 0 + (utf8_len l + 1) |})
      as (st' & Hrun & Hidx & Hown & Hkeep); [simpl; lia|].
    simpl in Hidx, Hown, Hkeep.
    exists st'. split_and!.
    + done.
    + rewrite Hidx. simpl. lia.
    + intros [|i] l' Hi; simpl in Hi.
      * injection Hi as <-. rewrite Nat.add_0_r, Hkeep by lia.
        unfold write, open_wt. by rewrite lookup_alter_eq, lookup_insert_eq.
      * rewrite <- (Hown i l' Hi). f_equal. lia.
    + intros j Hj. rewrite Hkeep by lia. unfold write, open_wt.
      rewrite lookup_alter_ne, lookup_insert_ne by lia. done.
Qed.

Lemma total_len_length (ls : list line) :
  Forall (fun l => 1 <= utf8_len l) ls -> Z.of_nat (length ls) <= total_len ls.
Proof. induction 1 as [|l ls Hl _ IH]; simpl; lia. Qed.

Lemma singletons_concat {A} (ls : list (list A)) :
  Forall (fun l => exists x, l = [x]) ls -> ls = (fun x => [x]) <$> concat ls.
Proof.
  induction 1 as [|l ls [x ->] _ IH]; [done|]. simpl. by f_equal.
Qed.

(** With a budget of zero or less every line that is read makes the bucket
    overflow: each bucket written holds one line, and none is left over. *)
Lemma shuffle_in_temp_files_own_buckets (line_stream output : list line)
  (seed : string) (chunk_bytes bucket_bytes : Z) (chunk_dir : gmap nat line)
  (keep_chunks : bool) :
  Forall encodable line_stream -> Forall newline_free line_stream ->
  bucket_bytes <= 0 ->
  exists o w,
    shuffle_in_temp_files line_stream output seed chunk_bytes bucket_bytes
      chunk_dir keep_chunks = Ok o /\
    out_output o = output ++ w /\
    w ≡ₚ with_newline <$> line_stream /\
    out_flushed o = (fun l => [l]) <$> w /\
    out_bucket_count o = length w.
Proof.
  intros Henc Hfree Hbb.
  destruct (shuffle_in_temp_files_spec output seed chunk_bytes bucket_bytes
              chunk_dir keep_chunks line_stream Henc)
    as (o & gs & over & last & Hrun & Hcat & Hout & Hperm & Hfl & Hlen & Hover
        & Hlast).
  assert (concat (out_flushed o) ≡ₚ with_newline <$> line_stream) as Hw.
  { rewrite Hperm, readlines_groups by by rewrite Hcat. by rewrite Hcat. }
  assert (Forall (fun l => 1 <= utf8_len l) (concat (out_flushed o))) as Hpos.
  { rewrite Hw. apply Forall_fmap. eapply Forall_impl; [exact Henc|].
    intros l Hl. simpl. rewrite utf8_len_with_newline by done.
    pose proof (utf8_len_nonneg l). lia. }
  rewrite Hfl, concat_app in Hpos. apply Forall_app in Hpos as [Hpos1 Hpos2].
  assert (last = []) as ->.
  { destruct Hlast as [->|(fb & -> & Hne & Hle)]; [done|]. exfalso.
    simpl in Hpos2. rewrite app_nil_r in Hpos2.
    apply total_len_length in Hpos2. destruct fb; [done|].
    simpl length in Hpos2. lia. }
  rewrite app_nil_r in Hfl.
  assert (Forall (fun fb : list line => exists l, fb = [l]) over) as Hone.
  { apply Forall_concat_inv in Hpos1.
    rewrite Forall_forall in Hover, Hpos1 |- *.
    intros fb Hfb. destruct (Hover fb Hfb) as (_ & l & before & Hp & Hbefore).
    assert (Forall (fun l => 1 <= utf8_len l) before) as Hb.
    { specialize (Hpos1 fb Hfb). rewrite Hp in Hpos1.
      by apply Forall_app in Hpos1 as [? _]. }
    assert (before = []) as ->.
    { destruct Hbefore as [->|Hle]; [done|].
      apply total_len_length in Hb. destruct before; [done|].
      simpl length in Hb. lia. }
    exists l. by apply Permutation_singleton_r. }
  exists o, (concat (out_flushed o)). split_and!; [done..| |].
  - rewrite Hfl. by apply singletons_concat.
  - rewrite <- Hlen, Hfl. rewrite (singletons_concat over Hone) at 1.
    by rewrite length_fmap.
Qed.

(** ** Determinism *)

(** C1. Two calls of either function on the same stream, with the same seed
    and the same configuration, give the same: [shuffle_with_max_lines]
    returns the same sequence (or raises the same exception), and
    [shuffle_in_temp_files] adds the same lines in the same order to its
    sink, prints and returns the same, whatever the two calls find in
    [chunk_dir] and in the sink. *)
Theorem shuffle_deterministic (stream1 stream2 : list line) (seed1 seed2 : string)
  (max_lines max_words_in_sentence total_byte_size : Z)
  (chunk_bytes bucket_bytes : Z) (keep_chunks : bool)
  (chunk_dir1 chunk_dir2 : gmap nat line) (output1 output2 : list line) :
  stream1 = stream2 -> seed1 = seed2 ->
  shuffle_with_max_lines stream1 seed1 max_lines max_words_in_sentence
    total_byte_size =
  shuffle_with_max_lines stream2 seed2 max_lines max_words_in_sentence
    total_byte_size /\
  observable output1
    (shuffle_in_temp_files stream1 output1 seed1 chunk_bytes bucket_bytes
       chunk_dir1 keep_chunks) =
  observable output2
    (shuffle_in_temp_files stream2 output2 seed2 chunk_bytes bucket_bytes
       chunk_dir2 keep_chunks).
Proof.
  intros -> ->. split; [done|]. apply shuffle_in_temp_files_observable.
Qed.

(** ** Permutation *)

(** C2, as amended. The lines [shuffle_in_temp_files] adds to the sink are a
    permutation of the lines of the stream, each with its ["\n"], when the
    lines hold no line ending. [shuffle_with_max_lines] returns a permutation
    of the lines that pass the word-count filter when fewer than [max_lines]
    lines pass it, when [max_lines] lines pass it and the stream ends with
    the last of them, and when [max_lines] is zero or less. When more than
    [max_lines] lines pass it, with [max_lines] at least one, it returns no
    more than [max_lines] lines, so no permutation of them. In every case
    what it returns holds each line at most as often as the stream does. *)
Theorem shuffle_permutation (line_stream output : list line) (seed : string)
  (max_lines max_words_in_sentence total_byte_size : Z)
  (chunk_bytes bucket_bytes : Z) (chunk_dir : gmap nat line)
  (keep_chunks : bool) :
  Forall encodable line_stream ->
  (Forall newline_free line_stream ->
   exists o w,
     shuffle_in_temp_files line_stream output seed chunk_bytes bucket_bytes
       chunk_dir keep_chunks = Ok o /\
     out_output o = output ++ w /\
     w ≡ₚ with_newline <$> line_stream) /\
  (Z.of_nat (length (kept max_words_in_sentence line_stream)) < max_lines \/
   max_lines <= 0 \/
   (Z.of_nat (length (kept max_words_in_sentence line_stream)) = max_lines /\
    exists pre x, line_stream = pre ++ [x] /\
      too_long max_words_in_sentence x = false) ->
   exists r,
     shuffle_with_max_lines line_stream seed max_lines max_words_in_sentence
       total_byte_size = Ok r /\
     r ≡ₚ kept max_words_in_sentence line_stream) /\
  (1 <= max_lines < Z.of_nat (length (kept max_words_in_sentence line_stream)) ->
   forall r,
     shuffle_with_max_lines line_stream seed max_lines max_words_in_sentence
       total_byte_size = Ok r ->
     Z.of_nat (length r) <= max_lines /\
     ~ r ≡ₚ kept max_words_in_sentence line_stream) /\
  (forall r,
     shuffle_with_max_lines line_stream seed max_lines max_words_in_sentence
       total_byte_size = Ok r ->
     r ⊆+ line_stream).
Proof.
  intros Henc. split_and!.
  - by apply shuffle_in_temp_files_writes.
  - intros [Hfew|[Hzero|[Hfull Hlast]]].
    + by apply shuffle_with_max_lines_fits.
    + by apply shuffle_with_max_lines_unbounded.
    + by apply shuffle_with_max_lines_full.
  - intros [Hmax Hmore] r Hr.
    pose proof (shuffle_with_max_lines_length _ _ _ _ _ _ Hmax Hr) as Hlen.
    split; [done|]. intros Hperm%Permutation_length. lia.
  - apply shuffle_with_max_lines_sample.
Qed.

(** ** The word-count filter *)

(** C3, on the failing input. The stream is ["a"], ["b c d"], with
    [max_lines = 1], [max_words_in_sentence = 2] and [total_byte_size = 1].
    The first loop stops on ["a"]; the second loop does not count words, the
    sampling probability is 3, and the three-word line replaces ["a"]: it is
    what the function returns, whatever the generator draws. *)
Theorem long_line_sampled (seed : string) :
  shuffle_with_max_lines [text "a"; text "b c d"] seed 1 2 1 =
    Ok [text "b c d"] /\
  too_long 2 (text "b c d") = true.
Proof.
  split; [|done].
  unfold shuffle_with_max_lines.
  change (for_in (fill_body 1 2) fill_init [text "a"; text "b c d"])
    with (Ok ({| fill_lines := [text "a"]; fill_total_bytes := 1 |},
              [text "b c d"])).
  rewrite bind_Ok_eq.
  change (sample_init seed {| fill_lines := [text "a"]; fill_total_bytes := 1 |})
    with {| sample_lines := [text "a"]; sample_random := Random seed;
            sample_total_bytes := 1; sample_i := 0 |}.
  unfold for_in, sample_body.
  cbn [sample_lines sample_random sample_total_bytes sample_i].
  change (encode_len (text "b c d")) with (Ok 5 : result Z).
  rewrite bind_Ok_eq.
  repeat match goal with
  | |- context [truediv ?a ?b] =>
      let t := eval vm_compute in (truediv a b) in
      change (truediv a b) with t; rewrite bind_Ok_eq
  end.
  pose proof (random_range (Random seed)) as [_ Hr].
  destruct (random (Random seed)) as [r s]. simpl in Hr.
  assert (Qle_bool (6 # 2) r = false) as ->.
  { destruct (Qle_bool (6 # 2) r) eqn:Hle; [|done].
    apply Qle_bool_iff in Hle. unfold Qle, Qlt in *. simpl in *. lia. }
  reflexivity.
Qed.

(** ** The bound of the reservoir *)

(** C4, on the failing input. With [max_lines = 0] and the one-line stream
    ["a"], the reservoir is empty, then holds ["a"] after the first iteration
    and to the end: one line, with a bound of zero. The test
    [len(lines) == max_lines] comes after the [append] and cannot hold. *)
Theorem reservoir_exceeds_zero_max_lines (seed : string) :
  reservoir_history [text "a"] seed 0 10 1 = [[]; [text "a"]; [text "a"]].
Proof. reflexivity. Qed.

(** C5, on the failing input. With [max_lines = 0] the function returns the
    line of the one-line stream ["a"], not the empty sequence. *)
Theorem zero_max_lines_keeps_lines (seed : string) :
  shuffle_with_max_lines [text "a"] seed 0 10 1 = Ok [text "a"].
Proof. reflexivity. Qed.

(** ** The budgets of [shuffle_in_temp_files] *)

(** C6, as amended. With [chunk_bytes] not negative, when the stream has been
    written every chunk file from [chunk.0] to the last one either has at
    most [chunk_bytes] bytes or holds one line of the stream, alone, that is
    over the budget by itself. *)
Theorem chunk_budget (line_stream : list line) (chunk_bytes : Z)
  (chunk_dir : gmap nat line) :
  Forall encodable line_stream -> 0 <= chunk_bytes ->
  exists st,
    write_chunks line_stream chunk_bytes chunk_dir = Ok st /\
    forall i, (i <= chunk_index st)%nat ->
      exists content, chunk_files st !! i = Some content /\
        chunk_budget_respected chunk_bytes line_stream content.
Proof.
  intros Henc Hcb.
  destruct (write_chunks_spec chunk_bytes chunk_dir line_stream Henc)
    as (st & gs & Hrun & Hlen & Hcat & Hfiles & _ & Hok).
  exists st. unfold write_chunks. rewrite Hrun. split; [done|].
  intros i Hi.
  destruct (lookup_lt_is_Some_2 gs i ltac:(lia)) as [g Hg].
  exists (join g). split; [by apply Hfiles|].
  assert (Forall encodable g) as Hgenc.
  { eapply Forall_lookup_1; [|done]. apply Forall_concat_inv. by rewrite Hcat. }
  assert (utf8_len (join g) = total_len (with_newline <$> g)) as Hsize.
  { unfold join. apply utf8_len_concat, Forall_fmap.
    eapply Forall_impl; [done|]. apply encodable_with_newline. }
  specialize (Hok Hcb). eapply Forall_lookup_1 in Hok; [|done].
  destruct Hok as [Hle|(l & -> & Hgt)].
  - left. by rewrite Hsize.
  - right. exists l. split_and!.
    + rewrite <- Hcat. apply list_elem_of_In, in_concat. exists [l].
      split; [|by left]. apply list_elem_of_In. by eapply list_elem_of_lookup_2.
    + unfold join; simpl. by rewrite app_nil_r.
    + by rewrite Hsize.
Qed.


(** C8, as amended. [shuffle_in_temp_files] returns [None]. It prints
    ["Shuffled with N buckets."], where N is the number of buckets it wrote to
    the sink because they went over the budget: the buckets written are these
    N buckets, each over [bucket_bytes], then the bucket left over at the end
    when it is not empty, which is within the budget and is not counted. *)
Theorem returns_none (line_stream output : list line) (seed : string)
  (chunk_bytes bucket_bytes : Z) (chunk_dir : gmap nat line)
  (keep_chunks : bool) :
  Forall encodable line_stream ->
  exists (o : outcome) (over last : list (list line)),
    shuffle_in_temp_files line_stream output seed chunk_bytes bucket_bytes
      chunk_dir keep_chunks = Ok o /\
    out_return o = PyNone /\
    out_stdout o =
      ["Shuffled with " +:+ pretty (out_bucket_count o) +:+ " buckets."] /\
    out_output o = output ++ concat (out_flushed o) /\
    out_flushed o = over ++ last /\
    out_bucket_count o = length over /\
    Forall (fun fb => bucket_bytes < total_len fb) over /\
    (last = [] \/
     exists fb, last = [fb] /\ fb <> [] /\ total_len fb <= bucket_bytes) /\
    out_bucket_count o =
      length (filter (fun fb => bucket_bytes < total_len fb) (out_flushed o)).
Proof.
  intros Henc.
  destruct (shuffle_in_temp_files_spec output seed chunk_bytes bucket_bytes
              chunk_dir keep_chunks line_stream Henc)
    as (o & gs & over & last & Hrun & _ & Hout & _ & Hfl & Hlen & Hover & Hlast).
  destruct (shuffle_in_temp_files_return _ _ _ _ _ _ _ _ Hrun) as [Hret Hprint].
  assert (Forall (fun fb => bucket_bytes < total_len fb) over) as Hbig.
  { eapply Forall_impl; [exact Hover|]. by intros fb [? _]. }
  exists o, over, last. split_and!; try done.
  rewrite Hfl, filter_app, length_app, <- Hlen.
  assert (filter (fun fb => bucket_bytes < total_len fb) over = over) as ->.
  { clear -Hbig. induction Hbig as [|fb over Hfb _ IH]; [done|].
    by rewrite filter_cons_True, IH. }
  destruct Hlast as [->|(fb & -> & _ & Hle)]; [simpl; lia|].
  rewrite filter_cons_False by lia. simpl. lia.
Qed.

(** C9, as amended. [shuffle_in_temp_files] does not check its budgets:
    whatever they are, zero and negative too, it raises nothing, reads the
    whole stream and adds every line of it to the sink. With [chunk_bytes]
    zero or less every line is written to a chunk file of its own, after
    [chunk.0], which stays empty; with [bucket_bytes] zero or less every line
    is written to the sink as a bucket of its own, and counted. *)
Theorem budgets_not_validated (line_stream output : list line) (seed : string)
  (chunk_bytes bucket_bytes : Z) (chunk_dir : gmap nat line)
  (keep_chunks : bool) :
  Forall encodable line_stream -> Forall newline_free line_stream ->
  exists o w,
    shuffle_in_temp_files line_stream output seed chunk_bytes bucket_bytes
      chunk_dir keep_chunks = Ok o /\
    out_output o = output ++ w /\
    w ≡ₚ with_newline <$> line_stream /\
    (chunk_bytes <= 0 ->
     exists st,
       write_chunks line_stream chunk_bytes chunk_dir = Ok st /\
       chunk_index st = length line_stream /\
       chunk_files st !! 0%nat = Some [] /\
       forall i l, line_stream !! i = Some l ->
         chunk_files st !! S i = Some (with_newline l)) /\
    (bucket_bytes <= 0 ->
     out_flushed o = (fun l => [l]) <$> w /\
     out_bucket_count o = length w).
Proof.
  intros Henc Hfree.
  assert (chunk_bytes <= 0 ->
    exists st,
      write_chunks line_stream chunk_bytes chunk_dir = Ok st /\
      chunk_index st = length line_stream /\
      chunk_files st !! 0%nat = Some [] /\
      forall i l, line_stream !! i = Some l ->
        chunk_files st !! S i = Some (with_newline l)) as Hchunks.
  { intros Hcb.
    destruct (write_chunks_own chunk_bytes line_stream (chunk_init chunk_dir)
                Hcb ltac:(done) Henc) as (st & Hrun & Hidx & Hown & Hkeep).
    exists st. unfold write_chunks. rewrite Hrun. split_and!; [done..| |].
    - rewrite (Hkeep 0%nat) by (simpl; lia). simpl. unfold open_wt.
      by rewrite lookup_insert_eq.
    - intros i l Hi. by rewrite <- (Hown i l Hi). }
  destruct (decide (bucket_bytes <= 0)) as [Hbb|Hbb].
  - destruct (shuffle_in_temp_files_own_buckets line_stream output seed
                chunk_bytes bucket_bytes chunk_dir keep_chunks Henc Hfree Hbb)
      as (o & w & Hrun & Hout & Hperm & Hfl & Hcount).
    exists o, w. split_and!; done.
  - destruct (shuffle_in_temp_files_writes line_stream output seed chunk_bytes
                bucket_bytes chunk_dir keep_chunks Henc Hfree)
      as (o & w & Hrun & Hout & Hperm).
    exists o, w. split_and!; done.
Qed.

(** ** The empty stream *)

(** C10. On the empty stream the first stage, which draws nothing from the
    generator, leaves [chunk.0] empty in [chunk_dir] and every other file as
    it was. The function then adds nothing to the sink and, with
    [keep_chunks] false, removes [chunk.0]: a directory that was empty is
    empty again. *)
Theorem empty_stream (output : list line) (seed : string)
  (chunk_bytes bucket_bytes : Z) (chunk_dir : gmap nat line)
  (keep_chunks : bool) :
  write_chunks [] chunk_bytes chunk_dir =
    Ok {| chunk_files := <[0%nat := []]> chunk_dir; chunk_index := 0;
          bytes_written_to_chunk := 0 |} /\
  shuffle_in_temp_files [] output seed chunk_bytes bucket_bytes chunk_dir
      keep_chunks =
    Ok {| out_files := if keep_chunks then <[0%nat := []]> chunk_dir
                       else delete 0%nat chunk_dir;
          out_output := output;
          out_stdout := ["Shuffled with 0 buckets."]; out_return := PyNone;
          out_flushed := []; out_bucket_count := 0 |} /\
  shuffle_in_temp_files [] output seed chunk_bytes bucket_bytes ∅ false =
    Ok {| out_files := ∅; out_output := output;
          out_stdout := ["Shuffled with 0 buckets."]; out_return := PyNone;
          out_flushed := []; out_bucket_count := 0 |}.
Proof.
  assert (forall (dir : gmap nat line) (keep : bool),
    shuffle_in_temp_files [] output seed chunk_bytes bucket_bytes dir keep =
    Ok {| out_files := if keep then <[0%nat := []]> dir else delete 0%nat dir;
          out_output := output;
          out_stdout := ["Shuffled with 0 buckets."]; out_return := PyNone;
          out_flushed := []; out_bucket_count := 0 |}) as Hrun.
  { intros dir keep. unfold shuffle_in_temp_files, write_chunks. simpl.
    unfold read_body, open_r, remove. simpl. unfold open_wt.
    rewrite !lookup_insert_eq. simpl.
    destruct keep; simpl; [done|]. by rewrite delete_insert_eq. }
  split_and!; [done|apply Hrun|].
  rewrite Hrun. by rewrite delete_empty.
Qed.

End Claims.

(** * The claims on concrete inputs

    The runs below use the generator [lcg]. *)

Ltac concrete_lines :=
  repeat (apply Forall_cons; split);
  first [ by constructor
        | reflexivity
        | split; apply (bool_decide_unpack _); by vm_compute ].

(** C1 on two calls that find different directories and sinks. *)
Lemma shuffle_deterministic_witness :
  [text "a"; text "b"; text "c"] = [text "a"; text "b"; text "c"] /\
  "x" = "x" /\
  @shuffle_with_max_lines lcg [text "a"; text "b"; text "c"] "x" 2 10 3 =
  @shuffle_with_max_lines lcg [text "a"; text "b"; text "c"] "x" 2 10 3 /\
  observable []
    (@shuffle_in_temp_files lcg [text "a"; text "b"; text "c"] [] "x" 4 3
       ∅ false) =
  observable [text "old"]
    (@shuffle_in_temp_files lcg [text "a"; text "b"; text "c"] [text "old"]
       "x" 4 3 (<[7%nat := text "junk"]> (<[0%nat := text "stale"]> ∅)) false).
Proof.
  split; [reflexivity|]. split; [reflexivity|].
  apply (@shuffle_deterministic lcg); reflexivity.
Defined.

(** C2 as the specification states it fails: of the two lines of the stream,
    both within the word limit, [shuffle_with_max_lines] with [max_lines = 1]
    returns one ([shuffle_with_max_lines_length] shows it for every
    generator). *)
Lemma permutation_fails_on_long_stream :
  exists r,
    @shuffle_with_max_lines lcg [text "a"; text "b"] "x" 1 10 2 = Ok r /\
    ~ r ≡ₚ kept 10 [text "a"; text "b"].
Proof.
  eexists. split; [vm_compute; reflexivity|].
  intros H%Permutation_length. vm_compute in H. discriminate H.
Qed.

(** C2 on the five lines of the specification's scenario A, with
    [max_lines = 5]: the first loop stops on the last line. *)
Lemma shuffle_permutation_witness :
  Forall encodable [text "a"; text "b"; text "c"; text "d"; text "e"] /\
  Forall newline_free [text "a"; text "b"; text "c"; text "d"; text "e"] /\
  (Z.of_nat (length (kept 10 [text "a"; text "b"; text "c"; text "d"; text "e"]))
   = 5 /\
   exists pre x,
     [text "a"; text "b"; text "c"; text "d"; text "e"] = pre ++ [x] /\
     too_long 10 x = false) /\
  (exists o w,
     @shuffle_in_temp_files lcg
       [text "a"; text "b"; text "c"; text "d"; text "e"] [] "x" 4 3 ∅
       false = Ok o /\
     out_output o = [] ++ w /\
     w ≡ₚ with_newline <$> [text "a"; text "b"; text "c"; text "d"; text "e"]) /\
  (exists r,
     @shuffle_with_max_lines lcg
       [text "a"; text "b"; text "c"; text "d"; text "e"] "x" 5 10 10 = Ok r /\
     r ≡ₚ kept 10 [text "a"; text "b"; text "c"; text "d"; text "e"]).
Proof.
  assert (Forall encodable [text "a"; text "b"; text "c"; text "d"; text "e"])
    as Henc by concrete_lines.
  assert (Forall newline_free [text "a"; text "b"; text "c"; text "d"; text "e"])
    as Hfree by concrete_lines.
  assert (Z.of_nat
            (length (kept 10 [text "a"; text "b"; text "c"; text "d"; text "e"]))
          = 5 /\
          exists pre x,
            [text "a"; text "b"; text "c"; text "d"; text "e"] = pre ++ [x] /\
            too_long 10 x = false) as Hfull.
  { split; [vm_compute; reflexivity|].
    exists [text "a"; text "b"; text "c"; text "d"], (text "e").
    split; reflexivity. }
  destruct (@shuffle_permutation lcg
              [text "a"; text "b"; text "c"; text "d"; text "e"] [] "x"
              5 10 10 4 3 ∅ false Henc) as (Hfiles & Hmax & _).
  split; [done|]. split; [done|]. split; [exact Hfull|].
  split; [by apply Hfiles|].
  apply Hmax. right. right. exact Hfull.
Defined.

(** C6 as the specification states it fails: with [chunk_bytes = -1] the
    first line starts [chunk.1], and [chunk.0] stays empty: zero bytes, more
    than the budget, and no line in it. *)
Lemma chunk_budget_fails_negative :
  exists st,
    write_chunks [text "a"] (-1) ∅ = Ok st /\
    chunk_files st !! 0%nat = Some [] /\
    ~ chunk_budget_respected (-1) [text "a"] [].
Proof.
  eexists. split_and!; [reflexivity|reflexivity|].
  intros [H|(l & _ & H & _)].
  - vm_compute in H. by apply H.
  - destruct l; discriminate H.
Qed.

Lemma chunk_budget_witness :
  Forall encodable [text "a"; text "b"; text "c"] /\ 0 <= 4 /\
  exists st,
    write_chunks [text "a"; text "b"; text "c"] 4 ∅ = Ok st /\
    forall i, (i <= chunk_index st)%nat ->
      exists content, chunk_files st !! i = Some content /\
        chunk_budget_respected 4 [text "a"; text "b"; text "c"] content.
Proof.
  assert (Forall encodable [text "a"; text "b"; text "c"]) as Henc
    by concrete_lines.
  split_and!; [done|lia|].
  apply (chunk_budget [text "a"; text "b"; text "c"] 4 ∅ Henc). lia.
Defined.



(** C8 as the specification states it fails: the call below writes one
    bucket on overflow, and returns [None], not 1. *)
Lemma bucket_count_not_returned :
  exists o,
    @shuffle_in_temp_files lcg [text "a"; text "b"] [] "s" 100 3 ∅ false =
      Ok o /\
    out_bucket_count o = 1%nat /\
    out_return o <> PyInt (Z.of_nat (out_bucket_count o)).
Proof.
  eexists. split_and!; [vm_compute; reflexivity|reflexivity|discriminate].
Qed.

Lemma returns_none_witness :
  Forall encodable [text "a"; text "b"; text "c"] /\
  exists (o : outcome) (over last : list (list line)),
    @shuffle_in_temp_files lcg [text "a"; text "b"; text "c"] [] "s" 100 3 ∅
      false = Ok o /\
    out_return o = PyNone /\
    out_stdout o =
      ["Shuffled with " +:+ pretty (out_bucket_count o) +:+ " buckets."] /\
    out_output o = [] ++ concat (out_flushed o) /\
    out_flushed o = over ++ last /\
    out_bucket_count o = length over /\
    Forall (fun fb => 3 < total_len fb) over /\
    (last = [] \/ exists fb, last = [fb] /\ fb <> [] /\ total_len fb <= 3) /\
    out_bucket_count o =
      length (filter (fun fb => 3 < total_len fb) (out_flushed o)).
Proof.
  assert (Forall encodable [text "a"; text "b"; text "c"]) as Henc
    by concrete_lines.
  split; [done|].
  apply (@returns_none lcg [text "a"; text "b"; text "c"] [] "s" 100 3 ∅
           false Henc).
Defined.

(** C9 as the specification states it fails: with both budgets zero the call
    raises nothing; it reads the line and writes it. *)
Lemma zero_budgets_accepted :
  observable []
    (@shuffle_in_temp_files lcg [text "a"] [] "s" 0 0 ∅ false) =
  Ok ([with_newline (text "a")], ["Shuffled with 1 buckets."], PyNone).
Proof. vm_compute. reflexivity. Qed.

Lemma budgets_not_validated_witness :
  Forall encodable [text "a"; text "b"; text "c"] /\
  Forall newline_free [text "a"; text "b"; text "c"] /\
  exists o w,
    @shuffle_in_temp_files lcg [text "a"; text "b"; text "c"] [] "s" 0 (-1) ∅
      false = Ok o /\
    out_output o = [] ++ w /\
    w ≡ₚ with_newline <$> [text "a"; text "b"; text "c"] /\
    (0 <= 0 ->
     exists st,
       write_chunks [text "a"; text "b"; text "c"] 0 ∅ = Ok st /\
       chunk_index st = length [text "a"; text "b"; text "c"] /\
       chunk_files st !! 0%nat = Some [] /\
       forall i l, [text "a"; text "b"; text "c"] !! i = Some l ->
         chunk_files st !! S i = Some (with_newline l)) /\
    (-1 <= 0 ->
     out_flushed o = (fun l => [l]) <$> w /\
     out_bucket_count o = length w).
Proof.
  assert (Forall encodable [text "a"; text "b"; text "c"]) as Henc
    by concrete_lines.
  assert (Forall newline_free [text "a"; text "b"; text "c"]) as Hfree
    by concrete_lines.
  split_and!; [done..|].
  apply (@budgets_not_validated lcg [text "a"; text "b"; text "c"] [] "s" 0
           (-1) ∅ false Henc Hfree).
Defined.

(** * The other functions: properties *)

(** ** [str.split], [str.join] and [str.replace] *)

Lemma split_on_cons (sep : N) (s : line) :
  exists field fields, split_on sep s = field :: fields.
Proof.
  induction s as [|c s (field & fields & IH)]; simpl; [eauto|].
  destruct (c =? sep)%N; [eauto|]. rewrite IH. eauto.
Qed.

(** Joining the fields with the separator gives the string back. *)
Lemma join_split_on (sep : N) (s : line) :
  str_join [sep] (split_on sep s) = s.
Proof.
  induction s as [|c s IH]; simpl; [done|].
  destruct (N.eqb_spec c sep) as [->|Hne].
  - destruct (split_on_cons sep s) as (field & fields & Hs).
    rewrite Hs in *. destruct fields; simpl in *; by rewrite <- IH.
  - destruct (split_on_cons sep s) as (field & fields & Hs).
    rewrite Hs in *. destruct fields; simpl in *; by rewrite <- IH.
Qed.

(** A string with no separator in it is its only field. *)
Lemma split_on_absent (sep : N) (s : line) :
  sep ∉ s -> split_on sep s = [s].
Proof.
  induction s as [|c s IH]; simpl; [done|].
  intros [Hc Hs]%not_elem_of_cons.
  destruct (N.eqb_spec c sep); [congruence|]. by rewrite IH.
Qed.

(** The first separator ends the first field. *)
Lemma split_on_first (sep : N) (field rest : line) :
  sep ∉ field ->
  split_on sep (field ++ sep :: rest) = field :: split_on sep rest.
Proof.
  induction field as [|c field IH]; simpl.
  - intros _. by rewrite N.eqb_refl.
  - intros [Hc Hs]%not_elem_of_cons.
    destruct (N.eqb_spec c sep); [congruence|]. by rewrite IH.
Qed.

(** The first field holds no separator. *)
Lemma split_on_head (sep : N) (s field : line) (fields : list line) :
  split_on sep s = field :: fields -> sep ∉ field.
Proof.
  revert field fields. induction s as [|c s IH]; simpl; intros field fields H.
  - injection H as <- <-. apply not_elem_of_nil.
  - destruct (N.eqb_spec c sep) as [->|Hne].
    + injection H as <- <-. apply not_elem_of_nil.
    + destruct (split_on_cons sep s) as (f & fs & Hs). rewrite Hs in H.
      injection H as <- <-. apply not_elem_of_cons. split; [done|].
      by eapply IH.
Qed.

Lemma startswith_length (old s : line) :
  startswith old s = true -> (length old <= length s)%nat.
Proof.
  revert s. induction old as [|o old IH]; intros [|c s]; simpl; try done; try lia.
  intros [_ H]%andb_prop. apply IH in H. lia.
Qed.

Lemma startswith_sep (old a b : line) (u : N) :
  u ∉ old -> startswith old (a ++ u :: b) = startswith old a.
Proof.
  revert a. induction old as [|o old IH]; intros a Hu; [by destruct a|].
  apply not_elem_of_cons in Hu as [Hne Hu].
  destruct a as [|c a]; simpl.
  - destruct (N.eqb_spec o u); [congruence|done].
  - by rewrite IH.
Qed.

Section Replace.

Variables (o : N) (old' new : line).

Local Abbreviation old := (o :: old').

Lemma replace_cons (s : line) : replace old new s = replace_from 0 old new s.
Proof. done. Qed.

(** Nothing comes in but the characters of [new]. *)
Lemma replace_from_elem (x : N) (k : nat) (s : line) :
  x ∈ replace_from k old new s -> x ∈ s \/ x ∈ new.
Proof.
  revert k. induction s as [|c s IH]; intros k; [by left|].
  cbn [replace_from]. destruct k as [|k].
  - destruct (startswith old (c :: s)).
    + intros [?|H]%elem_of_app; [by right|].
      apply IH in H as [?|?]; [left; by right | by right].
    + intros [->|H]%elem_of_cons; [left; by left|].
      apply IH in H as [?|?]; [left; by right | by right].
  - intros H. apply IH in H as [?|?]; [left; by right | by right].
Qed.

(** Without the first character of [old] in it a string stays as it is. *)
Lemma replace_from_absent (s : line) :
  o ∉ s -> replace_from 0 old new s = s.
Proof.
  induction s as [|c s IH]; [done|].
  intros [Hc Hs]%not_elem_of_cons. cbn [replace_from startswith].
  destruct (N.eqb_spec o c); [congruence|]. simpl. by rewrite IH.
Qed.

(** A character that is not in [old] cuts the string in two parts that are
    replaced apart. *)
Lemma replace_from_sep (u : N) (b : line) (k : nat) (a : line) :
  u ∉ old -> (k <= length a)%nat ->
  replace_from k old new (a ++ u :: b) =
  replace_from k old new a ++ u :: replace_from 0 old new b.
Proof.
  intros Hu. revert k. induction a as [|c a IH]; intros k Hk.
  - assert (k = 0)%nat as -> by (simpl in Hk; lia).
    cbn [app replace_from startswith].
    apply not_elem_of_cons in Hu as [Hne _].
    destruct (N.eqb_spec o u); [congruence|done].
  - cbn [app replace_from]. destruct k as [|k].
    + change (c :: a ++ u :: b) with ((c :: a) ++ u :: b).
      rewrite startswith_sep by done.
      destruct (startswith old (c :: a)) eqn:Hstart.
      * apply startswith_length in Hstart. simpl in Hstart.
        rewrite IH by (simpl; lia). by rewrite <- app_assoc.
      * rewrite IH by lia. done.
    + apply IH. simpl in Hk. lia.
Qed.

(** The result is no longer than the string when [new] is no longer than
    [old]. *)
Lemma replace_from_length (k : nat) (s : line) :
  (length new <= length old)%nat -> (k <= length s)%nat ->
  (length (replace_from k old new s) + k <= length s)%nat.
Proof.
  intros Hnew. revert k. induction s as [|c s IH]; intros k Hk.
  - simpl in *. lia.
  - cbn [replace_from]. destruct k as [|k].
    + destruct (startswith old (c :: s)) eqn:Hstart.
      * apply startswith_length in Hstart.
        rewrite length_app. simpl in *.
        specialize (IH (length old' - 0)%nat ltac:(lia)). lia.
      * specialize (IH 0%nat ltac:(lia)). simpl. lia.
    + simpl in Hk. specialize (IH k ltac:(lia)). simpl. lia.
Qed.

End Replace.

(** Replacing a character takes it out. *)
Lemma replace_char_absent (c : N) (new s : line) :
  c ∉ new -> c ∉ replace [c] new s.
Proof.
  intros Hnew. rewrite replace_cons.
  induction s as [|d s IH]; [apply not_elem_of_nil|].
  cbn [replace_from startswith length].
  destruct (N.eqb_spec c d) as [<-|Hne]; simpl.
  - intros [?|?]%elem_of_app; done.
  - apply not_elem_of_cons. done.
Qed.

(** ** [Dataset] *)

Lemma dataset_init_parts (dataset_key : line) (d : Dataset.t) :
  Dataset.init dataset_key = Returns d ->
  Dataset.key d = dataset_key /\
  dataset_key = Dataset.importer d ++ text "_" ++ Dataset.name d /\
  Dataset.importer d <> [] /\
  (ord "_" ∉ Dataset.importer d) /\
  Dataset.name d <> [].
Proof.
  unfold Dataset.init.
  destruct (split_on (ord "_") dataset_key) as [|importer rest] eqn:Hsplit;
    [done|].
  pose proof (join_split_on (ord "_") dataset_key) as Hjoin.
  rewrite Hsplit in Hjoin.
  pose proof (split_on_head _ _ _ _ Hsplit) as Hhead.
  destruct importer as [|c importer]; [done|].
  destruct (str_join (text "_") rest) as [|n name] eqn:Hname; [done|].
  intros [= <-]. simpl. split_and!; try done.
  destruct rest as [|r rest]; [done|].
  rewrite <- Hjoin. simpl. change (text "_") with [ord "_"] in Hname.
  by rewrite <- Hname.
Qed.

(** X1. A key that [Dataset] accepts is the importer, an underscore and the
    name: the importer is not empty and holds no underscore, the name is not
    empty, and the key is kept as it is. *)
Theorem dataset_init_sound (dataset_key : line) (d : Dataset.t) :
  Dataset.init dataset_key = Returns d ->
  Dataset.key d = dataset_key /\
  dataset_key = Dataset.importer d ++ text "_" ++ Dataset.name d /\
  Dataset.importer d <> [] /\
  (ord "_" ∉ Dataset.importer d) /\
  Dataset.name d <> [].
Proof. apply dataset_init_parts. Qed.

(** X2. Every key made of an importer that is not empty and holds no
    underscore, an underscore and a name that is not empty is accepted, and
    read back as this importer and this name (which may hold underscores). *)
Theorem dataset_init_complete (importer name : line) :
  importer <> [] -> ord "_" ∉ importer -> name <> [] ->
  Dataset.init (importer ++ text "_" ++ name) =
  Returns {| Dataset.key := importer ++ text "_" ++ name;
             Dataset.importer := importer;
             Dataset.name := name |}.
Proof.
  intros Himp Hunder Hname. unfold Dataset.init.
  change (importer ++ text "_" ++ name) with (importer ++ ord "_" :: name).
  rewrite split_on_first by done.
  change (text "_") with [ord "_"]. rewrite join_split_on.
  destruct importer; [done|]. by destruct name.
Qed.

(** X3. The keys [Dataset] refuses. The empty key and a key that starts with
    an underscore have no importer; a key with no underscore, and a key with
    nothing after its first underscore, have no name. Each is refused with
    the message of its case, followed by the key. *)
Theorem dataset_init_refuses (importer rest : line) :
  importer <> [] -> ord "_" ∉ importer ->
  Dataset.init [] =
    Raises (Exception
      (text "Could not find the importer in the dataset key ")) /\
  Dataset.init (text "_" ++ rest) =
    Raises (Exception
      (text "Could not find the importer in the dataset key "
       ++ text "_" ++ rest)) /\
  Dataset.init importer =
    Raises (Exception
      (text "Could not find the name in the dataset key " ++ importer)) /\
  Dataset.init (importer ++ text "_") =
    Raises (Exception
      (text "Could not find the name in the dataset key "
       ++ importer ++ text "_")).
Proof.
  intros Himp Hunder. split_and!.
  - done.
  - unfold Dataset.init. change (text "_" ++ rest) with ([] ++ ord "_" :: rest).
    rewrite split_on_first by apply not_elem_of_nil. done.
  - unfold Dataset.init. rewrite split_on_absent by done. by destruct importer.
  - unfold Dataset.init.
    change (importer ++ text "_") with (importer ++ ord "_" :: []).
    rewrite split_on_first by done. by destruct importer.
Qed.

(** ** [Dataset._escape] *)

Lemma escape_steps (s : line) :
  Dataset._escape s =
  replace_from 0 (text "]") (text "_")
    (replace_from 0 (text "[") (text "_")
       (replace_from 0 (text ":") (text "_")
          (replace_from 0 (text ".") (text "_")
             (replace_from 0 (text "/") (text "_")
                (replace_from 0 (text "://") (text "_") s))))).
Proof. done. Qed.

Lemma escape_safe (s : line) : file_safe (Dataset._escape s).
Proof.
  intros c Hc. unfold Dataset._escape.
  assert (forall (x : N) (old t : line), x ≠ ord "_" -> old <> [] ->
            x ∉ t -> x ∉ replace old (text "_") t) as Hkeep.
  { intros x [|o old'] t Hx Hold Ht Hin; [done|].
    rewrite replace_cons in Hin.
    apply replace_from_elem in Hin as [?|Hin]; [done|].
    apply list_elem_of_singleton in Hin. done. }
  assert (forall x t, x ≠ ord "_" -> x ∉ replace [x] (text "_") t) as Hout.
  { intros x t Hx. apply replace_char_absent.
    intros Hin%list_elem_of_singleton. done. }
  unfold unsafe_chars in Hc. cbn in Hc.
  repeat (apply elem_of_cons in Hc as [->|Hc]);
    [..|by apply elem_of_nil in Hc];
    repeat first [ apply (Hout _ _); done
                 | apply Hkeep; [done|done|] ].
Qed.

Lemma escape_of_safe (s : line) : file_safe s -> Dataset._escape s = s.
Proof.
  intros Hs. rewrite escape_steps.
  assert (forall c, c ∈ unsafe_chars -> forall old' new,
            replace_from 0 (c :: old') new s = s) as Hstep.
  { intros c Hc old' new. apply replace_from_absent. by apply Hs. }
  cbn [text].
  rewrite !Hstep; [done|apply (bool_decide_unpack _); by vm_compute..].
Qed.

(** X4. An escaped string holds none of the characters [/ . : [ ]], it is no
    longer than the string, and escaping it again changes nothing. *)
Theorem escape_file_safe (s : line) :
  file_safe (Dataset._escape s) /\
  (length (Dataset._escape s) <= length s)%nat /\
  Dataset._escape (Dataset._escape s) = Dataset._escape s.
Proof.
  split_and!.
  - apply escape_safe.
  - rewrite escape_steps.
    assert (forall o old' t,
              (length (replace_from 0 (o :: old') (text "_") t) <= length t)%nat)
      as Hstep.
    { intros o old' t.
      pose proof (replace_from_length o old' (text "_") 0 t
                    ltac:(simpl; lia) ltac:(lia)). lia. }
    cbn [text]. repeat (etrans; [apply Hstep|]). done.
  - apply escape_of_safe, escape_safe.
Qed.

(** X5. Escaping changes nothing in a string that holds none of these
    characters. *)
Theorem escape_idempotent (s : line) :
  file_safe s -> Dataset._escape s = s.
Proof. apply escape_of_safe. Qed.

(** An underscore cuts a string in two parts that are escaped apart. *)
Lemma escape_underscore (a b : line) :
  Dataset._escape (a ++ text "_" ++ b) =
  Dataset._escape a ++ text "_" ++ Dataset._escape b.
Proof.
  rewrite !escape_steps. cbn [text app].
  repeat (erewrite replace_from_sep;
    [|apply (bool_decide_unpack _); by vm_compute|lia]).
  done.
Qed.

(** X6. The file-safe key of a dataset is its escaped importer, an
    underscore and its file-safe name. *)
Theorem file_safe_key_name (dataset_key : line) (d : Dataset.t) :
  Dataset.init dataset_key = Returns d ->
  Dataset.file_safe_key d =
  Dataset._escape (Dataset.importer d) ++ text "_" ++ Dataset.file_safe_name d.
Proof.
  intros (Hkey & Hparts & _)%dataset_init_parts.
  unfold Dataset.file_safe_key, Dataset.file_safe_name.
  by rewrite Hkey, Hparts at 1; rewrite escape_underscore.
Qed.

(** * More on the shufflers *)

Lemma encode_len_raises (l : line) (e : exn) :
  encode_len l = Raise e -> e = UnicodeEncodeError.
Proof.
  induction l as [|c l IH]; simpl; [done|].
  destruct (utf8_char_len c) as [n|e'] eqn:Hc; simpl.
  - destruct (encode_len l) as [m|e'']; simpl; [done|].
    intros [= <-]. by apply IH.
  - intros [= <-]. unfold utf8_char_len in Hc.
    repeat match type of Hc with
           | (if ?b then _ else _) = _ => destruct b
           end; congruence.
Qed.

Lemma not_encodable_raises (l : line) :
  ~ encodable l -> encode_len l = Raise UnicodeEncodeError.
Proof.
  unfold encodable. destruct (encode_len l) as [n|e] eqn:H; [done|].
  intros _. f_equal. by eapply encode_len_raises.
Qed.

(** A loop raises what one of its iterations raises, in a state that the
    iterations before it have kept. *)
Lemma for_in_raises {A S} (body : S -> A -> result (flow S)) (I : S -> Prop) :
  (forall st x st', I st -> body st x = Ok (Continue st') -> I st') ->
  forall xs st e, I st -> for_in body st xs = Raise e ->
  exists st' x, I st' /\ x ∈ xs /\ body st' x = Raise e.
Proof.
  intros Hkeep. induction xs as [|x xs IH]; intros st e HI; simpl; [done|].
  destruct (body st x) as [[st1|st1]|e1] eqn:Hbody.
  - intros H. destruct (IH st1 e) as (st' & y & ? & ? & ?); eauto.
    exists st', y. split_and!; [done| by right |done].
  - done.
  - intros [= <-]. exists st, x. split_and!; [done| by left |done].
Qed.

Section WithMaxLinesMore.

Context {R : SeededRng}.
Variables (seed : string) (max_lines max_words_in_sentence total_byte_size : Z).

Lemma sample_init_lines (st : fill_state) :
  sample_lines (sample_init seed st) ≡ₚ fill_lines st.
Proof.
  unfold sample_init.
  destruct (shuffle (fill_lines st) (Random seed)) as [ls s] eqn:Hs. simpl.
  change ls with (ls, s).1. by rewrite <- Hs, shuffle_perm.
Qed.

(** The exceptions of the two loops, of those this development follows
    (the sampling arithmetic is exact here: an overflow of its floating-point
    numbers is not one of them). *)
Lemma shuffle_with_max_lines_raise_cases (line_stream : list line) (e : exn) :
  shuffle_with_max_lines line_stream seed max_lines max_words_in_sentence
    total_byte_size = Raise e ->
  e = UnicodeEncodeError \/ e = ZeroDivisionError.
Proof.
  unfold shuffle_with_max_lines.
  destruct (for_in (fill_body max_lines max_words_in_sentence) fill_init
              line_stream) as [[st rest]|e1] eqn:Hfill; simpl.
  - destruct (for_in (sample_body max_lines total_byte_size)
                (sample_init seed st) rest) as [[st' rest']|e2] eqn:Hsample;
      simpl; [done|].
    intros [= <-].
    apply fill_spec in Hfill as (pre & _ & Hlines & [[-> _]|[_ Hlast]]);
      [done|].
    destruct Hlast as (pre' & x & -> & Hx).
    apply (for_in_raises _ (fun s => sample_lines s <> [])) in Hsample
      as (s & l & Hs & _ & Hbody).
    + unfold sample_body in Hbody.
      destruct (encode_len l) as [n|e3] eqn:Hn; simpl in Hbody;
        [|injection Hbody as <-; left; by eapply encode_len_raises].
      unfold truediv in Hbody.
      repeat match type of Hbody with
             | context [if ?b then _ else _] =>
                 destruct b; simpl in Hbody; [injection Hbody as <-; by right|]
             end.
      destruct (random (sample_random s)) as [r s'].
      destruct (negb _); [|done].
      destruct (sample_lines s); [done|]. done.
    + intros s l s' Hs Hbody. apply sample_body_length in Hbody.
      destruct (sample_lines s'); [|done]. by destruct (sample_lines s).
    + intros Hnil.
      pose proof (sample_init_lines st) as Hperm.
      rewrite Hnil, Hlines, kept_snoc, Hx in Hperm.
      apply Permutation_length in Hperm. rewrite length_app in Hperm.
      simpl in Hperm. lia.
  - intros [= <-].
    apply (for_in_raises _ (fun _ => True)) in Hfill as (s & l & _ & _ & Hbody);
      [|done..].
    unfold fill_body in Hbody.
    destruct (encode_len l) as [n|e3] eqn:Hn; simpl in Hbody.
    + repeat match type of Hbody with
             | context [if ?b then _ else _] => destruct b
             end; done.
    + injection Hbody as <-. left. by eapply encode_len_raises.
Qed.

(** X7. [shuffle_with_max_lines] never calls [popleft] on an empty deque:
    it does not raise [IndexError], whatever the stream, the seed and the
    configuration. The second loop runs only after the first has stopped on
    a line it kept, and it takes a line out only to put one in. *)
Theorem shuffle_with_max_lines_never_pops_empty (line_stream : list line) :
  shuffle_with_max_lines line_stream seed max_lines max_words_in_sentence
    total_byte_size <> Raise IndexError.
Proof.
  intros H. by destruct (shuffle_with_max_lines_raise_cases _ _ H).
Qed.

(** X8. When it returns, with [max_lines] at least one,
    [shuffle_with_max_lines] returns [max_lines] lines, or as many lines as
    pass the word-count filter when these are fewer. *)
Theorem shuffle_with_max_lines_size (line_stream r : list line) :
  1 <= max_lines ->
  shuffle_with_max_lines line_stream seed max_lines max_words_in_sentence
    total_byte_size = Ok r ->
  Z.of_nat (length r) =
  Z.min max_lines (Z.of_nat (length (kept max_words_in_sentence line_stream))).
Proof.
  intros Hmax. unfold shuffle_with_max_lines. intros H.
  inv_bind H. destruct a as [st rest]. inv_bind H. destruct a as [st' rest'].
  injection H as <-. rewrite shuffle_length.
  apply (sample_spec _ _ (sample_lines (sample_init seed st))) in Ha0
    as (_ & _ & ->); [|done].
  rewrite (sample_init_lines st).
  apply fill_spec in Ha as (pre & -> & -> & [[-> Hlt]|[Heq _]]).
  - rewrite app_nil_r. specialize (Hlt ltac:(lia)). lia.
  - unfold kept at 2. rewrite filter_app, length_app.
    fold (kept max_words_in_sentence pre). lia.
Qed.

Lemma for_in_cons_raises {A S} (body : S -> A -> result (flow S)) (st : S)
  (x : A) (xs : list A) (e : exn) :
  body st x = Raise e -> for_in body st (x :: xs) = Raise e.
Proof. simpl. by intros ->. Qed.

Lemma sample_body_zero_size (st : sample_state) (z : line) :
  total_byte_size = 0 -> encodable z -> max_lines + (sample_i st + 1) <> 0 ->
  sample_body max_lines total_byte_size st z = Raise ZeroDivisionError.
Proof.
  intros -> Hz Hden. unfold sample_body, truediv.
  rewrite (encodable_len z Hz). cbn [mbind result_bind].
  destruct (Qeq_bool (inject_Z (max_lines + (sample_i st + 1))) 0) eqn:Hzero.
  { apply Qeq_bool_iff in Hzero. unfold Qeq in Hzero. simpl in Hzero. lia. }
  cbn [mbind result_bind].
  match goal with
  | |- context [if Qeq_bool ?a 0 then _ else _] =>
      destruct (Qeq_bool a 0) eqn:Havg; [done|]
  end.
  cbn [mbind result_bind].
  assert (forall q, Qeq_bool (inject_Z 0 / q) 0 = true) as ->; [|done].
  intros q. by apply Qeq_bool_iff.
Qed.

(** X9. With [total_byte_size] zero, [shuffle_with_max_lines] raises
    [ZeroDivisionError] as soon as the stream goes on after [max_lines]
    lines have passed the filter: the estimated number of lines is zero, or
    the average line has no byte. *)
Theorem shuffle_with_max_lines_zero_size (pre rest : list line) (x : line) :
  total_byte_size = 0 ->
  1 <= max_lines ->
  Forall encodable (pre ++ x :: rest) ->
  Z.of_nat (length (kept max_words_in_sentence pre)) = max_lines ->
  shuffle_with_max_lines (pre ++ x :: rest) seed max_lines
    max_words_in_sentence total_byte_size = Raise ZeroDivisionError.
Proof.
  intros Hsize Hmax Henc Hfull.
  destruct (fill_ok max_lines max_words_in_sentence _ fill_init Henc)
    as [[st rest0] Hfill].
  pose proof Hfill as Hspec.
  apply fill_spec in Hspec as (pre0 & Hpre0 & Hlines & Hstop).
  assert (exists z rest1, rest0 = z :: rest1) as (z & rest1 & ->).
  { destruct rest0 as [|z rest1]; [|eauto]. exfalso.
    rewrite app_nil_r in Hpre0. subst pre0.
    assert (length (kept max_words_in_sentence (pre ++ x :: rest)) =
            (length (kept max_words_in_sentence pre) +
             length (kept max_words_in_sentence (x :: rest)))%nat) as Hlen.
    { unfold kept. by rewrite filter_app, length_app. }
    destruct Hstop as [[_ Hlt]|[Heq (pre' & y & Hy & Hkept)]].
    - specialize (Hlt ltac:(lia)). rewrite Hlines in Hlt. lia.
    - assert (y ∈ kept max_words_in_sentence (x :: rest)) as Hin.
      { apply list_elem_of_filter. split; [done|].
        apply last_Some_elem_of.
        assert (last (pre ++ x :: rest) = Some y) as Hlast
          by (rewrite Hy; apply last_snoc).
        by rewrite last_app_cons in Hlast. }
      rewrite Hlines in Heq.
      destruct (kept max_words_in_sentence (x :: rest));
        [by apply elem_of_nil in Hin|]. simpl in Hlen. lia. }
  assert (encodable z) as Hz.
  { rewrite Hpre0 in Henc. apply Forall_app in Henc as [_ H]. by inversion H. }
  unfold shuffle_with_max_lines. rewrite Hfill.
  cbn [mbind result_bind].
  erewrite for_in_cons_raises; [done|].
  apply sample_body_zero_size; [done..|].
  unfold sample_init. destruct (shuffle (fill_lines st) (Random seed)).
  simpl. lia.
Qed.

End WithMaxLinesMore.

(** ** More on [shuffle_in_temp_files] *)

(** The first stage stops at the first line that cannot be encoded. *)
Lemma write_chunks_raises (chunk_bytes : Z) (line_stream : list line)
  (st : chunk_state) :
  ~ Forall encodable line_stream ->
  for_in (chunk_body chunk_bytes) st line_stream = Raise UnicodeEncodeError.
Proof.
  revert st. induction line_stream as [|l ls IH]; intros st Hnot.
  - destruct Hnot. constructor.
  - destruct (encode_len l) as [n|e] eqn:Hl.
    + assert (encodable l) as Henc by by eapply encode_len_encodable.
      cbn [for_in]. rewrite (chunk_body_eq chunk_bytes st l Henc).
      apply IH. intros Hls. apply Hnot. by constructor.
    + apply for_in_cons_raises. unfold chunk_body. rewrite Hl. simpl.
      f_equal. by eapply encode_len_raises.
Qed.

(** The number of chunks grows by at most one with each line. *)
Lemma write_chunks_count (chunk_bytes : Z) (line_stream rest : list line)
  (st0 st : chunk_state) :
  for_in (chunk_body chunk_bytes) st0 line_stream = Ok (st, rest) ->
  (chunk_index st <= chunk_index st0 + length line_stream)%nat.
Proof.
  revert st0. induction line_stream as [|l ls IH]; intros st0; simpl.
  - intros [= <- <-]. lia.
  - unfold chunk_body at 1.
    destruct (encode_len l) as [n|e]; simpl; [|done].
    destruct (_ >? _); intros H%IH; simpl in H; lia.
Qed.

Lemma join_groups (gs : list (list line)) : gs ≫= join = join (concat gs).
Proof.
  induction gs as [|g gs IH]; [done|].
  rewrite bind_cons, IH. simpl concat. by rewrite join_app.
Qed.

Lemma readlines_from_cons (cur : line) (c : N) (rest : line) :
  readlines_from cur (c :: rest) =
  if (c =? LF)%N then rev (LF :: cur) :: readlines_from [] rest
  else if (c =? CR)%N then
    match rest with
    | c' :: rest' =>
        if (c' =? LF)%N then rev (LF :: cur) :: readlines_from [] rest'
        else rev (LF :: cur) :: readlines_from [] rest
    | [] => rev (LF :: cur) :: readlines_from [] rest
    end
  else readlines_from (c :: cur) rest.
Proof. done. Qed.

(** A ["\n"] ends a line whatever comes before it. *)
Lemma readlines_from_LF (x cur rest : line) :
  readlines_from cur (x ++ LF :: rest) =
  readlines_from cur (x ++ [LF]) ++ readlines_from [] rest.
Proof.
  remember (length x) as n eqn:Hn. revert x Hn cur.
  induction n as [n IH] using lt_wf_ind. intros [|c x] Hn cur.
  - done.
  - cbn [app length] in *.
    rewrite (readlines_from_cons cur c (x ++ LF :: rest)),
      (readlines_from_cons cur c (x ++ [LF])).
    destruct (c =? LF)%N.
    { rewrite <- app_comm_cons. f_equal. eapply IH; [|done]. lia. }
    destruct (c =? CR)%N.
    + destruct x as [|c' x]; cbn [app length] in *.
      * done.
      * destruct (c' =? LF)%N; rewrite <- app_comm_cons; f_equal.
        -- eapply IH; [|done]. lia.
        -- apply (IH (length (c' :: x)) ltac:(simpl; lia) (c' :: x) eq_refl).
    + eapply IH; [|done]. lia.
Qed.

(** What is read back from a file is what is read back from each line
    written to it. *)
Lemma readlines_join_lines (g : list line) :
  readlines (join g) = g ≫= (fun l => readlines (with_newline l)).
Proof.
  induction g as [|l g IH]; [done|].
  rewrite bind_cons, <- IH.
  change (join (l :: g)) with ((l ++ [LF]) ++ join g).
  rewrite <- app_assoc. apply readlines_from_LF.
Qed.

Lemma readlines_groups_lines (gs : list (list line)) :
  gs ≫= (fun g => readlines (join g)) =
  concat gs ≫= (fun l => readlines (with_newline l)).
Proof.
  induction gs as [|g gs IH]; [done|].
  simpl concat. by rewrite bind_cons, bind_app, readlines_join_lines, IH.
Qed.

Lemma bind_ext_in {A B} (f g : A -> list B) (l : list A) :
  (forall x, x ∈ l -> f x = g x) -> l ≫= f = l ≫= g.
Proof.
  induction l as [|x l IH]; intros H; [done|].
  rewrite !bind_cons, (H x) by by left.
  rewrite IH; [done|]. intros y Hy. apply H. by right.
Qed.

Lemma seq_bind_groups {A B} (gs : list (list A)) (f : list A -> list B) :
  seq 0 (length gs) ≫= (fun i => f (default [] (gs !! i))) = gs ≫= f.
Proof.
  induction gs as [|g gs IH]; [done|].
  simpl length. rewrite <- cons_seq, <- fmap_S_seq, !bind_cons, list_fmap_bind.
  simpl. by rewrite <- IH.
Qed.

(** What Python reads back from a line that was written with its ["\n"]. *)
Lemma readlines_plain (l : line) :
  newline_free l -> readlines (with_newline l) = [with_newline l].
Proof.
  intros Hl. unfold readlines, with_newline. by rewrite readlines_from_line.
Qed.

Lemma readlines_from_cr (a cur rest : line) :
  newline_free a -> rest <> [] -> hd CR rest ≠ LF ->
  readlines_from cur (a ++ CR :: rest) =
  rev (LF :: rev a ++ cur) :: readlines_from [] rest.
Proof.
  intros [Hlf Hcr] Hrest Hhd. revert cur.
  induction a as [|c a IH]; intros cur; simpl.
  - destruct rest as [|c' rest']; [done|]. simpl in Hhd.
    destruct (N.eqb_spec c' LF); [done|]. done.
  - apply not_elem_of_cons in Hlf as [Hc1 Hlf], Hcr as [Hc2 Hcr].
    destruct (N.eqb_spec c LF); [congruence|].
    destruct (N.eqb_spec c CR); [congruence|].
    rewrite IH by done. simpl. by rewrite <- !app_assoc.
Qed.

Lemma readlines_cr_inside (a b : line) :
  newline_free a -> newline_free b -> b <> [] ->
  readlines (with_newline (a ++ CR :: b)) = [with_newline a; with_newline b].
Proof.
  intros Ha Hb Hne. unfold with_newline, readlines.
  rewrite <- app_assoc. simpl.
  rewrite readlines_from_cr; [|done|by destruct b|].
  - rewrite app_nil_r. cbn [rev]. rewrite rev_involutive.
    f_equal. apply (readlines_plain b Hb).
  - destruct b as [|c b]; [done|]. simpl.
    destruct Hb as [Hb _]. apply not_elem_of_cons in Hb as [? _]. done.
Qed.

Lemma readlines_cr_end (a : line) :
  newline_free a -> readlines (with_newline (a ++ [CR])) = [with_newline a].
Proof.
  intros Ha. unfold with_newline, readlines. rewrite <- app_assoc.
  assert (forall cur, readlines_from cur (a ++ [CR; LF]) =
                      [rev cur ++ a ++ [LF]]) as Hend; [|apply Hend].
  destruct Ha as [Hlf Hcr']. induction a as [|c a IH]; intros cur.
  - done.
  - apply not_elem_of_cons in Hlf as [Hc1 Hlf], Hcr' as [Hc2 Hcr'].
    rewrite <- app_comm_cons, readlines_from_cons.
    destruct (N.eqb_spec c LF); [congruence|].
    destruct (N.eqb_spec c CR); [congruence|].
    rewrite IH by done. simpl. by rewrite <- app_assoc.
Qed.

Lemma readlines_plain_lines (lines : list line) :
  Forall newline_free lines ->
  lines ≫= (fun l => readlines (with_newline l)) = with_newline <$> lines.
Proof.
  induction 1 as [|l lines Hl _ IH]; [done|].
  by rewrite bind_cons, IH, readlines_plain.
Qed.

Section InTempFilesMore.

Context {R : SeededRng}.
Variables (output : list line) (seed : string).
Variables (chunk_bytes bucket_bytes : Z).
Variables (chunk_dir : gmap nat line) (keep_chunks : bool).

(** X10. [shuffle_in_temp_files] returns when every line of the stream can
    be encoded, and raises [UnicodeEncodeError] otherwise: it never finds a
    chunk file missing. *)
Theorem shuffle_in_temp_files_raises (line_stream : list line) :
  match shuffle_in_temp_files line_stream output seed chunk_bytes bucket_bytes
          chunk_dir keep_chunks with
  | Ok _ => Forall encodable line_stream
  | Raise e => e = UnicodeEncodeError /\ ~ Forall encodable line_stream
  end.
Proof.
  destruct (decide (Forall (fun l => is_ok (encode_len l) = true) line_stream))
    as [Henc|Hnot].
  - destruct (shuffle_in_temp_files_spec output seed chunk_bytes bucket_bytes
                chunk_dir keep_chunks line_stream Henc) as (o & _ & _ & _ & -> & _).
    done.
  - unfold shuffle_in_temp_files, write_chunks.
    by rewrite write_chunks_raises.
Qed.

Lemma written_lines (line_stream : list line) :
  Forall encodable line_stream ->
  exists o w,
    shuffle_in_temp_files line_stream output seed chunk_bytes bucket_bytes
      chunk_dir keep_chunks = Ok o /\
    out_output o = output ++ w /\
    w ≡ₚ line_stream ≫= (fun l => readlines (with_newline l)).
Proof.
  intros Henc.
  destruct (shuffle_in_temp_files_spec output seed chunk_bytes bucket_bytes
              chunk_dir keep_chunks line_stream Henc)
    as (o & gs & _ & _ & Hrun & Hcat & Hout & Hperm & _).
  exists o, (concat (out_flushed o)). split_and!; [done..|].
  by rewrite Hperm, readlines_groups_lines, Hcat.
Qed.

(** X11. The lines added to the sink, for any stream that can be encoded:
    they are, in some order, what Python reads back from each line followed
    by ["\n"]. *)
Theorem shuffle_in_temp_files_written (line_stream : list line) :
  Forall encodable line_stream ->
  exists o w,
    shuffle_in_temp_files line_stream output seed chunk_bytes bucket_bytes
      chunk_dir keep_chunks = Ok o /\
    out_output o = output ++ w /\
    w ≡ₚ line_stream ≫= (fun l => readlines (with_newline l)).
Proof. apply written_lines. Qed.

(** X12. A carriage return in a line. The line [a + "\r" + b] among lines
    without line endings is written as the two lines [a] and [b], and as the
    line [a] alone when [b] is empty: the sink gets the lines of another
    stream, in some order. *)
Theorem carriage_return_splits (pre post : list line) (a b : line) :
  Forall encodable (pre ++ (a ++ CR :: b) :: post) ->
  Forall newline_free (pre ++ post) ->
  newline_free a -> newline_free b ->
  exists o w,
    shuffle_in_temp_files (pre ++ (a ++ CR :: b) :: post) output seed
      chunk_bytes bucket_bytes chunk_dir keep_chunks = Ok o /\
    out_output o = output ++ w /\
    w ≡ₚ with_newline <$>
           (pre ++ [a] ++ (if decide (b = []) then [] else [b]) ++ post).
Proof.
  intros Henc Hfree Ha Hb.
  destruct (written_lines _ Henc) as (o & w & Hrun & Hout & Hperm).
  exists o, w. split_and!; [done..|]. rewrite Hperm.
  apply Forall_app in Hfree as [Hpre Hpost].
  rewrite bind_app, bind_cons, !readlines_plain_lines by done.
  rewrite !fmap_app.
  destruct (decide (b = [])) as [->|Hne].
  - by rewrite readlines_cr_end.
  - by rewrite readlines_cr_inside.
Qed.

(** What one iteration of the loop over the chunks does to the directory. *)
Lemma read_body_files (st st' : read_state) (x : nat) :
  read_body bucket_bytes keep_chunks st x = Ok (Continue st') ->
  read_files st' =
  if keep_chunks then read_files st else delete x (read_files st).
Proof.
  unfold read_body. intros H. inv_bind H. inv_bind H. destruct a0 as [b rest].
  inv_bind H. injection H as <-. simpl.
  destruct keep_chunks; [by injection Ha1 as <-|].
  unfold remove in Ha1. destruct (read_files st !! x); [|done].
  by injection Ha1 as <-.
Qed.

Lemma read_loop_files (st st' : read_state) (indexes rest : list nat) :
  for_in (read_body bucket_bytes keep_chunks) st indexes = Ok (st', rest) ->
  forall i, read_files st' !! i =
    if keep_chunks then read_files st !! i
    else if decide (i ∈ indexes) then None else read_files st !! i.
Proof.
  intros Hrun.
  unshelve epose proof (for_in_inv (read_body bucket_bytes keep_chunks)
    (fun pre s => forall i, read_files s !! i =
       if keep_chunks then read_files st !! i
       else if decide (i ∈ pre) then None else read_files st !! i)
    (fun _ _ => False) indexes _ _ _ _ _ _ Hrun) as (pre & Hpre & H).
  - intros pre x post s s' _ Hs Hbody i.
    rewrite (read_body_files _ _ _ Hbody).
    destruct keep_chunks; [apply Hs|].
    destruct (decide (i = x)) as [->|Hne].
    + rewrite lookup_delete_eq. rewrite decide_True; [done|].
      apply elem_of_app. right. by left.
    + rewrite lookup_delete_ne by done. rewrite Hs.
      destruct (decide (i ∈ pre)).
      * rewrite decide_True; [done|]. apply elem_of_app. by left.
      * rewrite decide_False; [done|].
        intros [?|Hin%list_elem_of_singleton]%elem_of_app; done.
  - intros pre x post s s' _ _ Hbody.
    unfold read_body in Hbody. inv_bind Hbody. inv_bind Hbody.
    destruct a0. inv_bind Hbody. done.
  - simpl. intros i. by destruct keep_chunks.
  - destruct H as [[H ->]|[]]. rewrite app_nil_r in Hpre. by subst.
Qed.

(** X13. The chunk files hold the stream: when the stream has been written,
    the files [chunk.0] to the last chunk, one after the other, are the lines
    of the stream in their order, each with its ["\n"]; there are at most as
    many chunks as lines, and one more; no other file of the directory is
    touched. *)
Theorem chunks_hold_the_stream (line_stream : list line) :
  Forall encodable line_stream ->
  exists st,
    write_chunks line_stream chunk_bytes chunk_dir = Ok st /\
    (chunk_index st <= length line_stream)%nat /\
    seq 0 (S (chunk_index st)) ≫= (fun i => default [] (chunk_files st !! i)) =
      join line_stream /\
    (forall i, (chunk_index st < i)%nat -> chunk_files st !! i = chunk_dir !! i).
Proof.
  intros Henc.
  destruct (write_chunks_spec chunk_bytes chunk_dir line_stream Henc)
    as (st & gs & Hrun & Hlen & Hcat & Hfiles & Hrest & _).
  exists st. unfold write_chunks. rewrite Hrun. split_and!; [done|..].
  - by apply write_chunks_count in Hrun.
  - rewrite <- Hlen, <- Hcat, <- join_groups, <- (seq_bind_groups gs join).
    apply bind_ext_in. intros i Hi%elem_of_seq.
    destruct (lookup_lt_is_Some_2 gs i ltac:(lia)) as [g Hg].
    by rewrite (Hfiles i g Hg), Hg.
  - intros i Hi. apply Hrest. lia.
Qed.

(** X14. The directory after a run. With [keep_chunks] the chunk files stay
    as the first stage wrote them; without it every one of them is removed.
    The other files of the directory are as they were. *)
Theorem chunk_files_after (line_stream : list line) :
  Forall encodable line_stream ->
  exists st o,
    write_chunks line_stream chunk_bytes chunk_dir = Ok st /\
    shuffle_in_temp_files line_stream output seed chunk_bytes bucket_bytes
      chunk_dir keep_chunks = Ok o /\
    forall i, out_files o !! i =
      if keep_chunks then chunk_files st !! i
      else if decide (i <= chunk_index st)%nat then None else chunk_dir !! i.
Proof.
  intros Henc.
  destruct (write_chunks_spec chunk_bytes chunk_dir line_stream Henc)
    as (st & gs & Hrun & Hlen & Hcat & Hfiles & Hrest & _).
  destruct (shuffle_in_temp_files_spec output seed chunk_bytes bucket_bytes
              chunk_dir keep_chunks line_stream Henc) as (o & _ & _ & _ & Ho & _).
  exists st, o. split_and!; [by unfold write_chunks; rewrite Hrun|done|].
  revert Ho. unfold shuffle_in_temp_files, write_chunks. rewrite Hrun.
  cbn [mbind result_bind]. unfold shuffled_chunk_indexes.
  pose proof (shuffle_perm (seq 0 (chunk_index st + 1)) (Random seed)) as Hsh.
  destruct (shuffle (seq 0 (chunk_index st + 1)) (Random seed))
    as [indexes random]. simpl in Hsh.
  destruct (for_in _ (read_init output st random) indexes)
    as [[st' rest]|e] eqn:Hread; [|done].
  cbn [mbind result_bind]. intros [= <-] i. simpl.
  rewrite (read_loop_files _ _ _ _ Hread i). simpl.
  destruct keep_chunks; [done|].
  destruct (decide (i ∈ indexes)) as [Hin|Hout].
  - rewrite Hsh in Hin. apply elem_of_seq in Hin.
    rewrite decide_True; [done|lia].
  - rewrite decide_False.
    + apply Hrest. destruct (decide (length gs <= i)%nat); [done|].
      destruct Hout. rewrite Hsh. apply elem_of_seq. lia.
    + intros Hi. apply Hout. rewrite Hsh. apply elem_of_seq. lia.
Qed.

End InTempFilesMore.

(** ** [SentenceSizeDistribution.count_line] *)

Lemma count_line_spec (self : SentenceSizeDistribution.t) (l : line) :
  SentenceSizeDistribution.count_line self l =
  Returns {|
    SentenceSizeDistribution.histogram :=
      <[length l :=
          default 0 (SentenceSizeDistribution.histogram self !! length l) + 1]>
        (SentenceSizeDistribution.histogram self);
    SentenceSizeDistribution.scale := SentenceSizeDistribution.scale self |}.
Proof.
  unfold SentenceSizeDistribution.count_line.
  destruct (decide _) as [Hnone|Hsome].
  - by rewrite lookup_insert_eq, insert_insert_eq, Hnone.
  - destruct (SentenceSizeDistribution.histogram self !! length l); done.
Qed.

Lemma of_length_cons (n : nat) (l : line) (lines : list line) :
  of_length n (l :: lines) =
  if decide (length l = n) then l :: of_length n lines else of_length n lines.
Proof. unfold of_length. by rewrite filter_cons. Qed.

(** X15. Counting lines never fails, and adds to the entry of each length
    the number of lines of that length; a length no line has gets no entry.
    The scale is not touched. *)
Theorem count_lines_histogram (self : SentenceSizeDistribution.t)
    (lines : list line) :
  exists self',
    count_lines self lines = Returns self' /\
    SentenceSizeDistribution.scale self' = SentenceSizeDistribution.scale self /\
    forall n,
      SentenceSizeDistribution.histogram self' !! n =
      if decide (of_length n lines = [])
      then SentenceSizeDistribution.histogram self !! n
      else Some (default 0 (SentenceSizeDistribution.histogram self !! n)
                 + Z.of_nat (length (of_length n lines))).
Proof.
  revert self. induction lines as [|l lines IH]; intros self.
  - exists self. split_and!; [done..|]. intros n. by rewrite decide_True.
  - simpl. rewrite count_line_spec. cbn [mbind attempt_bind].
    destruct (IH {|
      SentenceSizeDistribution.histogram :=
        <[length l :=
            default 0 (SentenceSizeDistribution.histogram self !! length l) + 1]>
          (SentenceSizeDistribution.histogram self);
      SentenceSizeDistribution.scale := SentenceSizeDistribution.scale self |})
      as (self' & Hrun & Hscale & Hhist).
    exists self'. split_and!; [done..|]. intros n. rewrite Hhist. simpl.
    rewrite of_length_cons.
    destruct (decide (length l = n)) as [<-|Hne].
    + rewrite lookup_insert_eq. rewrite (decide_False (P := _ :: _ = [])) by done.
      destruct (decide (of_length (length l) lines = [])) as [->|_]; simpl.
      * done.
      * f_equal. lia.
    + by rewrite lookup_insert_ne.
Qed.

Lemma map_fold_add_insert (m : gmap nat Z) (k : nat) (v : Z) :
  map_fold (fun _ => Z.add) 0 (<[k := v]> m) =
  map_fold (fun _ => Z.add) 0 m - default 0 (m !! k) + v.
Proof.
  destruct (m !! k) as [old|] eqn:Hk; simpl.
  - rewrite <- (insert_delete_id m k old) at 2 by done.
    rewrite <- (insert_delete_eq m).
    rewrite !map_fold_insert_L; try (by rewrite ?lookup_delete_eq); try lia.
    all: intros; lia.
  - rewrite map_fold_insert_L; [lia| |done]. intros; lia.
Qed.

(** X16. The entries of the histogram add up to the number of lines counted:
    each line is counted once. *)
Theorem count_lines_total (scale : Z) (lines : list line) :
  exists self,
    count_lines (SentenceSizeDistribution.init scale) lines = Returns self /\
    map_fold (fun _ => Z.add) 0 (SentenceSizeDistribution.histogram self) =
    Z.of_nat (length lines).
Proof.
  assert (forall self, exists self',
    count_lines self lines = Returns self' /\
    map_fold (fun _ => Z.add) 0 (SentenceSizeDistribution.histogram self') =
    map_fold (fun _ => Z.add) 0 (SentenceSizeDistribution.histogram self)
    + Z.of_nat (length lines)) as H.
  { induction lines as [|l lines IH]; intros self.
    - exists self. split; [done|]. simpl. lia.
    - simpl. rewrite count_line_spec. cbn [mbind attempt_bind].
      destruct (IH {|
        SentenceSizeDistribution.histogram :=
          <[length l :=
              default 0 (SentenceSizeDistribution.histogram self !! length l) + 1]>
            (SentenceSizeDistribution.histogram self);
        SentenceSizeDistribution.scale := SentenceSizeDistribution.scale self |})
        as (self' & Hrun & Htotal).
      exists self'. split; [done|]. rewrite Htotal. simpl.
      rewrite map_fold_add_insert. lia. }
  destruct (H (SentenceSizeDistribution.init scale)) as (self & Hrun & Htotal).
  exists self. split; [done|]. rewrite Htotal. simpl.
  rewrite map_fold_empty. lia.
Qed.

(** ** [ljust], [rjust] and [print_table] *)

Lemma encodable_replicate (n : nat) (c : N) :
  encodable [c] -> encodable (replicate n c).
Proof.
  intros Hc. induction n as [|n IH]; simpl; [done|].
  by apply encodable_cons.
Qed.

(** Aligning to the length of a column: the text is filled to this length. *)
Lemma justify_length (f : justify) (s : line) (n : nat) (c : N) :
  is_justify f -> Z.of_nat n <= ssize_max ->
  exists r, f s (Z.of_nat n) [c] = Returns r /\
    length r = Nat.max (length s) n /\
    (encodable s -> encodable [c] -> encodable r).
Proof.
  intros Hf Hn.
  assert ((Z.of_nat n <? - ssize_max - 1) || (ssize_max <? Z.of_nat n) = false)
    as Hfits.
  { apply orb_false_iff. split; [apply Z.ltb_ge|apply Z.ltb_ge; lia].
    unfold ssize_max in *. lia. }
  destruct Hf as [->| ->]; unfold ljust, rjust; rewrite Hfits;
    eexists; (split_and!; [reflexivity| |]).
  - rewrite length_app, length_replicate; lia.
  - intros Hs Hc. apply encodable_app. split; [done|].
    by apply encodable_replicate.
  - rewrite length_app, length_replicate; lia.
  - intros Hs Hc. apply encodable_app. split; [|done].
    by apply encodable_replicate.
Qed.

Lemma io_bind_eq {A B} (m : io A) (k : A -> io B) (stdout : line) :
  (m ≫= k) stdout =
  match m stdout with
  | (Returns a, stdout') => k a stdout'
  | (Raises e, stdout') => (Raises e, stdout')
  end.
Proof. done. Qed.

(** Printing a string that can be encoded. *)
Lemma print_encodable (s end_ stdout : line) :
  encodable s -> encodable end_ ->
  print s end_ stdout = (Returns tt, stdout ++ s ++ end_).
Proof.
  intros Hs He. unfold print. rewrite io_bind_eq. unfold stdout_write.
  rewrite (encodable_len s Hs), (encodable_len end_ He).
  by rewrite <- app_assoc.
Qed.

Lemma printable_str (x : datum) :
  printable x ->
  str x = Returns (str_text x) /\ encodable (str_text x) /\
  Z.of_nat (length (str_text x)) <= ssize_max.
Proof. intros (s & Hs & ? & ?). unfold str_text. by rewrite Hs. Qed.

Lemma join_cons (l : line) (ls : list line) : join (l :: ls) = l ++ [LF] ++ join ls.
Proof. unfold join, with_newline. simpl. by rewrite <- app_assoc. Qed.

Lemma Forall_zip_snd {A B} (P : B -> Prop) (l1 : list A) (l2 : list B) :
  Forall P l2 -> Forall (fun c => P c.2) (zip l1 l2).
Proof.
  intros H. revert l1. induction H as [|y l2 Hy _ IH]; intros [|x l1]; simpl;
    constructor; auto.
Qed.

Lemma Forall_zip_fst {A B} (P : A -> Prop) (l1 : list A) (l2 : list B) :
  Forall P l1 -> Forall (fun c => P c.1) (zip l1 l2).
Proof.
  intros H. revert l2. induction H as [|x l1 Hx _ IH]; intros [|y l2]; simpl;
    constructor; auto.
Qed.

Lemma cells_ok (row : list datum) (column_lengths : list nat)
    (alignments : list justify) :
  Forall printable row ->
  Forall (fun w => Z.of_nat w <= ssize_max) column_lengths ->
  Forall is_justify alignments ->
  Forall cell_ok (zip (zip row column_lengths) alignments).
Proof.
  intros Hrow Hcl Hals. unfold cell_ok.
  apply Forall_and. split; [|apply Forall_and; split].
  - apply (Forall_zip_fst (fun c : datum * nat => printable c.1)).
    by apply (Forall_zip_fst printable).
  - apply (Forall_zip_fst (fun c : datum * nat => Z.of_nat c.2 <= ssize_max)).
    by apply (Forall_zip_snd (fun w => Z.of_nat w <= ssize_max)).
  - by apply (Forall_zip_snd is_justify).
Qed.

Lemma print_cells_spec (cells : list (datum * nat * justify))
    (alignment : option justify) (stdout : line) :
  Forall cell_ok cells ->
  exists alignment' txt,
    print_cells cells alignment stdout = (Returns alignment', stdout ++ txt) /\
    length txt =
      sum_list_with
        (fun c => Nat.max (length (str_text c.1.1)) c.1.2 + 3)%nat cells /\
    ((cells = [] /\ alignment' = alignment) \/
     exists f, alignment' = Some f /\ is_justify f).
Proof.
  intros H. revert alignment stdout.
  induction H as [|[[d w] f] cells (Hd & Hw & Hf) _ IH]; intros alignment stdout.
  - exists alignment, []. simpl. rewrite app_nil_r. split_and!; [done..|by left].
  - simpl in Hd, Hw, Hf. cbn [print_cells]. rewrite io_bind_eq. unfold lift.
    destruct (printable_str d Hd) as (-> & Henc & _).
    cbn [mbind attempt_bind]. change (text " ") with [32%N].
    destruct (justify_length f (str_text d) w 32%N Hf Hw) as (r & -> & Hr & Hrenc).
    rewrite io_bind_eq.
    rewrite print_encodable; [| |done].
    2:{ apply encodable_app. split; [done|]. apply encodable_app. split; [|done].
        by apply Hrenc. }
    destruct (IH (Some f) (stdout ++ ([32%N] ++ r ++ text " |") ++ []))
      as (al' & txt & -> & Hlen & Hal).
    exists al', ([32%N] ++ r ++ text " |" ++ txt). split_and!.
    + f_equal. rewrite app_nil_r. by rewrite <- !app_assoc.
    + rewrite !length_app, Hlen, Hr. simpl. lia.
    + right. destruct Hal as [[_ ->]|Hal]; [by exists f|done].
Qed.

Lemma print_separator_spec (column_lengths : list nat)
    (alignment : option justify) (stdout : line) :
  Forall (fun w => Z.of_nat w <= ssize_max) column_lengths ->
  column_lengths = [] \/ (exists f, alignment = Some f /\ is_justify f) ->
  exists txt,
    print_separator column_lengths alignment stdout = (Returns tt, stdout ++ txt) /\
    length txt = sum_list_with (fun w => w + 3)%nat column_lengths.
Proof.
  intros Hcl. revert stdout.
  induction Hcl as [|w cl Hw _ IH]; intros stdout H.
  - exists []. by rewrite app_nil_r.
  - destruct H as [|(f & -> & Hf)]; [done|]. cbn [print_separator].
    rewrite io_bind_eq. unfold lift. change (text "-") with [45%N].
    destruct (justify_length f [] w 45%N Hf Hw) as (r & -> & Hr & Hrenc).
    rewrite io_bind_eq.
    rewrite print_encodable; [| |done].
    2:{ apply encodable_app. split; [done|]. apply encodable_app. split; [|done].
        by apply Hrenc. }
    destruct (IH (stdout ++ (text " " ++ r ++ text " |") ++ []))
      as (txt & -> & Hlen); [right; by exists f|].
    exists (text " " ++ r ++ text " |" ++ txt). split.
    + f_equal. rewrite app_nil_r. by rewrite <- !app_assoc.
    + rewrite !length_app, Hlen, Hr. simpl. lia.
Qed.

Lemma cells_width (row : list datum) (column_lengths : list nat)
    (alignments : list justify) :
  Forall2 (fun x w => length (str_text x) <= w)%nat row column_lengths ->
  length alignments = length column_lengths ->
  sum_list_with (fun c : datum * nat * justify =>
      Nat.max (length (str_text c.1.1)) c.1.2 + 3)%nat
    (zip (zip row column_lengths) alignments) =
  sum_list_with (fun w => w + 3)%nat column_lengths.
Proof.
  intros H. revert alignments.
  induction H as [|x w row cl Hx _ IH]; intros [|f als] Hlen; try done.
  simpl in *. rewrite IH by lia. lia.
Qed.

Lemma print_rows_spec (rows : list (list datum)) (index : nat)
    (column_lengths : list nat) (alignments : list justify)
    (alignment : option justify) (stdout : line) :
  Forall (Forall printable) rows ->
  Forall (fun w => Z.of_nat w <= ssize_max) column_lengths ->
  Forall is_justify alignments ->
  (index = 0%nat -> column_lengths <> [] ->
   zip (zip (hd [] rows) column_lengths) alignments <> [] \/ rows = []) ->
  exists lines,
    print_rows index rows column_lengths alignments alignment stdout =
      (Returns tt, stdout ++ join lines) /\
    length lines =
      (if (index =? 0)%nat
       then match rows with [] => 0%nat | _ => S (length rows) end
       else length rows) /\
    (length alignments = length column_lengths ->
     Forall (fun row =>
       Forall2 (fun x w => length (str_text x) <= w)%nat row column_lengths)
       rows ->
     Forall (fun l => length l = table_width column_lengths) lines).
Proof.
  intros Hrows Hcl Hals. revert index alignment stdout.
  induction Hrows as [|row rows Hrow _ IH]; intros index alignment stdout Hfirst.
  - exists []. simpl. rewrite app_nil_r. split_and!; [done|by destruct index|done].
  - cbn [print_rows]. change (text "|") with [124%N].
    rewrite io_bind_eq, print_encodable by done. rewrite io_bind_eq.
    destruct (print_cells_spec (zip (zip row column_lengths) alignments)
                alignment (stdout ++ [124%N] ++ [])
                (cells_ok _ _ _ Hrow Hcl Hals))
      as (al' & txt & -> & Htxt & Hal').
    rewrite io_bind_eq, print_encodable by done.
    destruct index as [|index]; cbn [Nat.eqb].
    + assert (column_lengths = [] \/ exists f, al' = Some f /\ is_justify f)
        as Hsep.
      { destruct column_lengths as [|w cl]; [by left|right].
        destruct (Hfirst eq_refl ltac:(done)) as [Hzip|]; [|done].
        destruct Hal' as [[Hnil _]|]; [|done]. simpl in Hzip. done. }
      rewrite !io_bind_eq, print_encodable by done. rewrite io_bind_eq.
      destruct (print_separator_spec column_lengths al'
                  ((((stdout ++ [124%N] ++ []) ++ txt) ++ [] ++ [LF])
                   ++ [124%N] ++ []) Hcl Hsep) as (sep & -> & Hsep').
      rewrite print_encodable by done.
      destruct (IH 1%nat al'
                  ((((((stdout ++ [124%N] ++ []) ++ txt) ++ [] ++ [LF])
                     ++ [124%N] ++ []) ++ sep) ++ [] ++ [LF]))
        as (lines & -> & Hlen & Hw); [done|].
      exists (([124%N] ++ txt) :: ([124%N] ++ sep) :: lines). split_and!.
      * f_equal. rewrite !join_cons. simpl. rewrite <- !app_assoc. done.
      * simpl in *. by rewrite Hlen.
      * intros Hl Hfit. apply Forall_cons in Hfit as [Hfit1 Hfit].
        constructor; [|constructor; [|by apply Hw]]; unfold table_width; simpl.
        -- by rewrite Htxt, cells_width.
        -- by rewrite Hsep'.
    + rewrite io_bind_eq. unfold mret, io_ret.
      destruct (IH (S (S index)) al' (((stdout ++ [124%N] ++ []) ++ txt)
                                      ++ [] ++ [LF])) as (lines & -> & Hlen & Hw);
        [done|].
      exists (([124%N] ++ txt) :: lines). split_and!.
      * f_equal. rewrite !join_cons. simpl. rewrite <- !app_assoc. done.
      * simpl in *. by rewrite Hlen.
      * intros Hl Hfit. apply Forall_cons in Hfit as [Hfit1 Hfit].
        constructor; [|by apply Hw]. unfold table_width. simpl.
        by rewrite Htxt, cells_width.
Qed.

Lemma foldl_max_bounds (xs : list nat) (a b : nat) :
  (a <= b)%nat -> Forall (fun x => x <= b)%nat xs ->
  (a <= foldl Nat.max a xs <= b)%nat /\
  forall x, x ∈ xs -> (x <= foldl Nat.max a xs)%nat.
Proof.
  intros Ha Hxs. revert a Ha. induction Hxs as [|y xs Hy _ IH]; intros a Ha; simpl.
  - split; [lia|]. intros x Hx. by apply not_elem_of_nil in Hx.
  - destruct (IH (Nat.max a y) ltac:(lia)) as [Hm Hin]. split; [lia|].
    intros x [->|Hx]%elem_of_cons; [lia|auto].
Qed.

Lemma py_max_spec (xs : list nat) (b : nat) :
  xs <> [] -> Forall (fun x => x <= b)%nat xs ->
  exists w, py_max xs = Returns w /\ (w <= b)%nat /\
    forall x, x ∈ xs -> (x <= w)%nat.
Proof.
  destruct xs as [|a xs]; [done|]. intros _ [Ha Hxs]%Forall_cons.
  eexists. split; [done|].
  destruct (foldl_max_bounds xs a b Ha Hxs) as [Hm Hin].
  split; [lia|]. intros x [->|Hx]%elem_of_cons; [lia|auto].
Qed.

Lemma zip_star_nonempty {A} (rows : list (list A)) :
  Forall (fun column => column <> []) (zip_star rows).
Proof.
  induction rows as [|row [|row' rows] IH]; [constructor|..].
  - simpl. induction row; constructor; done.
  - change (zip_star (row :: row' :: rows))
      with (zip_with cons row (zip_star (row' :: rows))).
    generalize (zip_star (row' :: rows)). clear.
    induction row as [|x row IH]; intros [|c cs]; simpl; constructor; auto.
Qed.

(** The cells of the columns are cells of the rows. *)
Lemma zip_star_Forall {A} (P : A -> Prop) (rows : list (list A)) :
  Forall (Forall P) rows -> Forall (Forall P) (zip_star rows).
Proof.
  induction rows as [|row [|row' rows] IH]; [constructor|..]; intros H.
  - apply Forall_cons in H as [Hrow _]. simpl.
    induction Hrow; constructor; [|done]. by constructor.
  - apply Forall_cons in H as [Hrow H]. specialize (IH H).
    change (zip_star (row :: row' :: rows))
      with (zip_with cons row (zip_star (row' :: rows))).
    revert IH. generalize (zip_star (row' :: rows)). clear H.
    induction Hrow as [|x row Hx _ IHrow]; intros [|c cs] Hcs; simpl;
      [constructor..|].
    apply Forall_cons in Hcs as [Hc Hcs]. constructor; [by constructor|auto].
Qed.

Lemma zip_star_first {A} (rows : list (list A)) :
  zip_star rows <> [] -> hd [] rows <> [].
Proof.
  destruct rows as [|row [|row' rows]]; [done|..]; by destruct row.
Qed.

Lemma zip_star_rect {A} (rows : list (list A)) (n : nat) :
  rows <> [] ->
  Forall (fun row => length row = n) rows ->
  length (zip_star rows) = n /\
  Forall (fun row => Forall2 (fun x column => x ∈ column) row (zip_star rows)) rows.
Proof.
  induction rows as [|row [|row' rows] IH]; [done|..]; intros _ H.
  - apply Forall_cons in H as [<- _]. simpl. rewrite length_fmap. split; [done|].
    constructor; [|constructor]. clear. induction row; constructor; [|done].
    by left.
  - apply Forall_cons in H as [Hrow H].
    destruct (IH ltac:(done) H) as [Hlen Hcols].
    change (zip_star (row :: row' :: rows))
      with (zip_with cons row (zip_star (row' :: rows))).
    revert Hlen Hcols. generalize (zip_star (row' :: rows)) as cols.
    generalize (row' :: rows) as rest. clear IH H. subst n.
    intros rest cols Hlen Hcols. split.
    + rewrite length_zip_with. lia.
    + constructor.
      * clear Hcols. revert cols Hlen.
        induction row as [|x row IH]; intros [|c cols] Hlen; try done.
        simpl. constructor; [by left|]. apply IH. simpl in Hlen. lia.
      * eapply Forall_impl; [exact Hcols|]. intros r Hr. clear Hcols.
        revert row Hlen. induction Hr as [|x c r cols Hx _ IH]; intros row Hlen.
        -- by destruct row.
        -- destruct row as [|y row]; [done|]. simpl.
           constructor; [by right|]. apply IH. simpl in Hlen. lia.
Qed.

Lemma str_lengths (column : list datum) :
  Forall printable column ->
  mapM (fun x => s ← str x; mret (length s)) column =
  Returns ((fun x => length (str_text x)) <$> column).
Proof.
  induction 1 as [|x column Hx _ IH]; [done|].
  simpl. destruct (printable_str x Hx) as (-> & _ & _).
  cbn [mbind attempt_bind mret attempt_ret]. by rewrite IH.
Qed.

Lemma column_length_spec (column : list datum) :
  column <> [] -> Forall printable column ->
  exists w, column_length column = Returns w /\
    Z.of_nat w <= ssize_max /\
    forall x, x ∈ column -> (length (str_text x) <= w)%nat.
Proof.
  intros Hne Hcolumn.
  destruct (py_max_spec ((fun x => length (str_text x)) <$> column)
              (Z.to_nat ssize_max)) as (w & Hw & Hbound & Hmax).
  { by destruct column. }
  { apply Forall_fmap. eapply Forall_impl; [exact Hcolumn|].
    intros x Hx. simpl. destruct (printable_str x Hx) as (_ & _ & Hlen). lia. }
  exists w. split_and!.
  - unfold column_length. rewrite (str_lengths column Hcolumn).
    cbn [mbind attempt_bind]. exact Hw.
  - unfold ssize_max in *. lia.
  - intros x Hx. apply Hmax.
    by apply (list_elem_of_fmap_2 (fun x => length (str_text x))).
Qed.

Lemma column_lengths_spec (columns : list (list datum)) :
  Forall (fun column => column <> []) columns ->
  Forall (Forall printable) columns ->
  exists column_lengths,
    mapM column_length columns = Returns column_lengths /\
    Forall (fun w => Z.of_nat w <= ssize_max) column_lengths /\
    Forall2 (fun column w =>
      forall x, x ∈ column -> (length (str_text x) <= w)%nat)
      columns column_lengths.
Proof.
  induction 1 as [|column columns Hne _ IH]; intros Hp.
  - exists []. split_and!; [done|constructor|constructor].
  - apply Forall_cons in Hp as [Hcolumn Hp].
    destruct (IH Hp) as (cl & Hrun & Hcl & Hfit).
    destruct (column_length_spec column Hne Hcolumn) as (w & Hw & Hbound & Hmax).
    exists (w :: cl). split_and!.
    + simpl. rewrite Hw. cbn [mbind attempt_bind]. by rewrite Hrun.
    + by constructor.
    + by constructor.
Qed.

(** What [print_table] does on a table of cells that can be printed, when
    the first cell is there. *)
Lemma print_table_spec (x : datum) (row : list datum) (rest : list (list datum))
    (stdout : line) :
  let table := (x :: row) :: rest in
  let body := if is_align x then rest else table in
  Forall (Forall printable) body ->
  exists column_lengths lines,
    print_table table stdout =
      (Returns body, stdout ++ no_datasets table ++ [LF] ++ join lines) /\
    length lines = match body with [] => 0%nat | _ => S (length body) end /\
    (Forall (fun r => length r = S (length row)) table ->
     Forall (fun r =>
       Forall2 (fun x w => length (str_text x) <= w)%nat r column_lengths) body /\
     Forall (fun l => length l = table_width column_lengths) lines).
Proof.
  intros table body Hpr. unfold print_table. rewrite io_bind_eq.
  assert ((if decide (length table <= 1)%nat
           then print (text "(no datasets)") [LF] else mret tt) stdout
          = (Returns tt, stdout ++ no_datasets table)) as ->.
  { unfold no_datasets. destruct (decide _).
    - by rewrite print_encodable.
    - cbn [mret io_ret]. by rewrite app_nil_r. }
  rewrite io_bind_eq. unfold table at 1 2. unfold mret at 1, io_ret at 1.
  rewrite io_bind_eq. unfold mret at 1, io_ret at 1. cbn [length].
  set (alignments := if is_align x then _ else _).
  assert (alignments =
    (if is_align x then x :: row
     else replicate (length (x :: row)) (an_align Align.left), body)) as ->.
  { unfold alignments, body, table. by destruct (is_align x). }
  cbv zeta.
  set (als := _ <$> _).
  assert (Forall is_justify als) as Hals.
  { unfold als. apply Forall_fmap, Forall_true. intros a. simpl.
    destruct (decide _); [by left|by right]. }
  assert (length als = S (length row)) as Hlals.
  { unfold als. rewrite length_fmap. destruct (is_align x); [done|].
    by rewrite length_replicate. }
  destruct (column_lengths_spec (zip_star body) (zip_star_nonempty body)
              (zip_star_Forall printable body Hpr))
    as (cl & Hrun & Hcl & Hmax).
  rewrite io_bind_eq. unfold lift. rewrite Hrun.
  rewrite io_bind_eq, print_encodable by done. rewrite io_bind_eq. fold table.
  destruct (print_rows_spec body 0 cl als None
              ((stdout ++ no_datasets table) ++ [] ++ [LF]) Hpr Hcl Hals)
    as (lines & -> & Hlen & Hw).
  { intros _ Hne. destruct body as [|r body']; [by right|left].
    assert (zip_star (r :: body') <> []) as Hz.
    { intros Hz. rewrite Hz in Hmax. apply Forall2_nil_inv_l in Hmax. done. }
    apply zip_star_first in Hz. simpl in Hz.
    destruct r; [done|]. destruct cl; [done|]. destruct als; [done|]. done. }
  exists cl, lines. split_and!.
  - cbn [mret io_ret]. f_equal. simpl. by rewrite <- !app_assoc.
  - done.
  - intros Hrect.
    assert (Forall (fun r => length r = S (length row)) body) as Hbody.
    { unfold body. destruct (is_align x); [|done].
      by apply Forall_cons in Hrect as [_ ?]. }
    destruct (decide (body = [])) as [Hnil|Hne].
    { rewrite Hnil in *. destruct lines; [|done]. split; constructor. }
    destruct (zip_star_rect body _ Hne Hbody) as [Hcols Hin].
    assert (Forall (fun r =>
      Forall2 (fun x w => length (str_text x) <= w)%nat r cl) body) as Hfit.
    { eapply Forall_impl; [exact Hin|]. intros r Hr.
      eapply Forall2_trans; [|exact Hr|exact Hmax].
      intros d column w Hd Hcolumn. by apply Hcolumn. }
    split; [done|]. apply Hw; [|done].
    apply Forall2_length in Hmax.
    transitivity (S (length row)); [exact Hlals|]. by rewrite <- Hmax.
Qed.

Section Tables.

Variable stdout : line.

(** X18. A table without a first cell: the table that has no row, or whose
    first row is empty, ends in an [IndexError]; ["(no datasets)"] is printed
    before it when the table has at most one row, and nothing else is. *)
Theorem print_table_empty (table : list (list datum)) :
  hd [] table = [] ->
  print_table table stdout =
  (Raises (Builtin IndexError), stdout ++ no_datasets table).
Proof.
  intros H. destruct table as [|[|x row] rest]; [| |done].
  - unfold print_table, no_datasets. rewrite io_bind_eq.
    destruct (decide _) as [_|Hn]; [|simpl in Hn; lia].
    by rewrite print_encodable.
  - unfold print_table, no_datasets. rewrite io_bind_eq.
    simpl length. destruct (decide _).
    + by rewrite print_encodable.
    + cbn [mret io_ret]. by rewrite app_nil_r.
Qed.

(** X19. A table with a first cell, whose cells can be printed ([str] gives
    the text of each, the standard output can encode it), is printed without
    an exception, whatever the rows hold and however long they are. After an
    empty line come one line for each row and one more for the separator
    under the first, the row of alignments apart, which the call takes out
    of the caller's list. *)
Theorem print_table_returns (x : datum) (row : list datum)
    (rest : list (list datum)) :
  let table := (x :: row) :: rest in
  let body := if is_align x then rest else table in
  Forall (Forall printable) body ->
  exists lines,
    print_table table stdout =
      (Returns body, stdout ++ no_datasets table ++ [LF] ++ join lines) /\
    length lines = match body with [] => 0%nat | _ => S (length body) end.
Proof.
  intros table body Hpr.
  destruct (print_table_spec x row rest stdout Hpr)
    as (cl & lines & Hrun & Hlen & _).
  by exists lines.
Qed.

(** X20. The lines of a table are as long as each other when its rows are
    and its cells can be printed: the text of every cell fits the length of
    its column, and every printed line, the separator too, has one [" "] and
    [" |"] around each column after the first ["|"]. *)
Theorem print_table_widths (x : datum) (row : list datum)
    (rest : list (list datum)) :
  let table := (x :: row) :: rest in
  let body := if is_align x then rest else table in
  Forall (Forall printable) body ->
  Forall (fun r => length r = S (length row)) table ->
  exists column_lengths lines,
    print_table table stdout =
      (Returns body, stdout ++ no_datasets table ++ [LF] ++ join lines) /\
    Forall (fun r =>
      Forall2 (fun x w => length (str_text x) <= w)%nat r column_lengths) body /\
    Forall (fun l => length l = table_width column_lengths) lines.
Proof.
  intros table body Hpr Hrect.
  destruct (print_table_spec x row rest stdout Hpr)
    as (cl & lines & Hrun & _ & Hw).
  destruct (Hw Hrect) as [Hfit Hlines].
  by exists cl, lines.
Qed.

End Tables.

(** * The properties above on concrete inputs *)

Lemma dataset_init_sound_witness :
  Dataset.init example_key = Returns example_dataset /\
  Dataset.key example_dataset = example_key /\
  example_key =
    Dataset.importer example_dataset ++ text "_" ++ Dataset.name example_dataset /\
  Dataset.importer example_dataset <> [] /\
  (ord "_" ∉ Dataset.importer example_dataset) /\
  Dataset.name example_dataset <> [].
Proof.
  split; [reflexivity|].
  apply (dataset_init_sound example_key example_dataset). reflexivity.
Defined.

Lemma dataset_init_complete_witness :
  text "opus" <> [] /\ (ord "_" ∉ text "opus") /\ text "CCAligned_v1" <> [] /\
  Dataset.init (text "opus" ++ text "_" ++ text "CCAligned_v1") =
  Returns {| Dataset.key := text "opus" ++ text "_" ++ text "CCAligned_v1";
             Dataset.importer := text "opus";
             Dataset.name := text "CCAligned_v1" |}.
Proof.
  assert (ord "_" ∉ text "opus") as Hunder
    by (apply (bool_decide_unpack _); by vm_compute).
  split_and!; [done..|].
  apply (dataset_init_complete (text "opus") (text "CCAligned_v1")); done.
Defined.

Lemma dataset_init_refuses_witness :
  text "opus" <> [] /\ (ord "_" ∉ text "opus") /\
  Dataset.init [] =
    Raises (Exception
      (text "Could not find the importer in the dataset key ")) /\
  Dataset.init (text "_" ++ text "v1") =
    Raises (Exception
      (text "Could not find the importer in the dataset key "
       ++ text "_" ++ text "v1")) /\
  Dataset.init (text "opus") =
    Raises (Exception
      (text "Could not find the name in the dataset key " ++ text "opus")) /\
  Dataset.init (text "opus" ++ text "_") =
    Raises (Exception
      (text "Could not find the name in the dataset key "
       ++ text "opus" ++ text "_")).
Proof.
  assert (ord "_" ∉ text "opus") as Hunder
    by (apply (bool_decide_unpack _); by vm_compute).
  split; [done|]. split; [done|].
  apply (dataset_init_refuses (text "opus") (text "v1")); done.
Defined.

Lemma escape_idempotent_witness :
  file_safe (text "CCAligned_v1") /\
  Dataset._escape (text "CCAligned_v1") = text "CCAligned_v1".
Proof.
  assert (file_safe (text "CCAligned_v1")) as Hsafe.
  { intros c Hc. revert c Hc. apply Forall_forall.
    apply (bool_decide_unpack _). by vm_compute. }
  split; [done|]. apply (escape_idempotent (text "CCAligned_v1") Hsafe).
Defined.

Lemma file_safe_key_name_witness :
  Dataset.init example_key = Returns example_dataset /\
  Dataset.file_safe_key example_dataset =
  Dataset._escape (Dataset.importer example_dataset) ++ text "_"
  ++ Dataset.file_safe_name example_dataset.
Proof.
  split; [reflexivity|].
  apply (file_safe_key_name example_key example_dataset). reflexivity.
Defined.

Lemma shuffle_with_max_lines_size_witness :
  1 <= 2 /\
  exists r,
    @shuffle_with_max_lines lcg [text "a"; text "b"; text "c"] "x" 2 10 100 =
      Ok r /\
    Z.of_nat (length r) =
    Z.min 2 (Z.of_nat (length (kept 10 [text "a"; text "b"; text "c"]))).
Proof.
  split; [lia|]. eexists. split; [vm_compute; reflexivity|].
  apply (@shuffle_with_max_lines_size lcg "x" 2 10 100
           [text "a"; text "b"; text "c"]); [lia|].
  vm_compute. reflexivity.
Defined.

Lemma shuffle_with_max_lines_zero_size_witness :
  0 = 0 /\ 1 <= 1 /\
  Forall encodable ([text "a"] ++ text "b" :: [text "c"]) /\
  Z.of_nat (length (kept 10 [text "a"])) = 1 /\
  @shuffle_with_max_lines lcg ([text "a"] ++ text "b" :: [text "c"]) "x" 1 10 0 =
    Raise ZeroDivisionError.
Proof.
  assert (Forall encodable ([text "a"] ++ text "b" :: [text "c"])) as Henc
    by (simpl; concrete_lines).
  split_and!; [done|lia|done|reflexivity|].
  apply (@shuffle_with_max_lines_zero_size lcg "x" 1 10 0 [text "a"] [text "c"]
           (text "b")); [reflexivity|lia|done|reflexivity].
Defined.

Lemma shuffle_in_temp_files_written_witness :
  Forall encodable [text "a"; text "b"; text "c"] /\
  exists o w,
    @shuffle_in_temp_files lcg [text "a"; text "b"; text "c"] [text "old"] "x"
      4 3 ∅ false = Ok o /\
    out_output o = [text "old"] ++ w /\
    w ≡ₚ [text "a"; text "b"; text "c"]
           ≫= (fun l => readlines (with_newline l)).
Proof.
  assert (Forall encodable [text "a"; text "b"; text "c"]) as Henc
    by concrete_lines.
  split; [done|].
  apply (@shuffle_in_temp_files_written lcg [text "old"] "x" 4 3 ∅ false
           [text "a"; text "b"; text "c"] Henc).
Defined.

Lemma carriage_return_splits_witness :
  Forall encodable ([text "a"] ++ (text "b" ++ CR :: text "c") :: [text "d"]) /\
  Forall newline_free ([text "a"] ++ [text "d"]) /\
  newline_free (text "b") /\ newline_free (text "c") /\
  exists o w,
    @shuffle_in_temp_files lcg
      ([text "a"] ++ (text "b" ++ CR :: text "c") :: [text "d"]) [] "x" 4 3 ∅
      false = Ok o /\
    out_output o = [] ++ w /\
    w ≡ₚ with_newline <$>
           ([text "a"] ++ [text "b"]
            ++ (if decide (text "c" = []) then [] else [text "c"])
            ++ [text "d"]).
Proof.
  assert (Forall encodable
            ([text "a"] ++ (text "b" ++ CR :: text "c") :: [text "d"])) as Henc
    by (simpl; concrete_lines).
  assert (Forall newline_free ([text "a"] ++ [text "d"])) as Hfree
    by (simpl; concrete_lines).
  assert (newline_free (text "b")) as Hb
    by (split; apply (bool_decide_unpack _); by vm_compute).
  assert (newline_free (text "c")) as Hc
    by (split; apply (bool_decide_unpack _); by vm_compute).
  split_and!; [done..|].
  apply (@carriage_return_splits lcg [] "x" 4 3 ∅ false [text "a"] [text "d"]
           (text "b") (text "c") Henc Hfree Hb Hc).
Defined.

Lemma chunks_hold_the_stream_witness :
  Forall encodable [text "a"; text "b"; text "c"] /\
  exists st,
    write_chunks [text "a"; text "b"; text "c"] 4
      (<[7%nat := text "junk"]> ∅) = Ok st /\
    (chunk_index st <= length [text "a"; text "b"; text "c"])%nat /\
    seq 0 (S (chunk_index st)) ≫= (fun i => default [] (chunk_files st !! i)) =
      join [text "a"; text "b"; text "c"] /\
    (forall i, (chunk_index st < i)%nat ->
       chunk_files st !! i = (<[7%nat := text "junk"]> ∅ : gmap nat line) !! i).
Proof.
  assert (Forall encodable [text "a"; text "b"; text "c"]) as Henc
    by concrete_lines.
  split; [done|].
  apply (chunks_hold_the_stream 4 (<[7%nat := text "junk"]> ∅)
           [text "a"; text "b"; text "c"] Henc).
Defined.

Lemma chunk_files_after_witness :
  Forall encodable [text "a"; text "b"; text "c"] /\
  exists st o,
    write_chunks [text "a"; text "b"; text "c"] 4
      (<[7%nat := text "junk"]> ∅) = Ok st /\
    @shuffle_in_temp_files lcg [text "a"; text "b"; text "c"] [] "x" 4 3
      (<[7%nat := text "junk"]> ∅) false = Ok o /\
    forall i, out_files o !! i =
      if false then chunk_files st !! i
      else if decide (i <= chunk_index st)%nat then None
           else (<[7%nat := text "junk"]> ∅ : gmap nat line) !! i.
Proof.
  assert (Forall encodable [text "a"; text "b"; text "c"]) as Henc
    by concrete_lines.
  split; [done|].
  apply (@chunk_files_after lcg [] "x" 4 3 (<[7%nat := text "junk"]> ∅) false
           [text "a"; text "b"; text "c"] Henc).
Defined.

Lemma print_table_empty_witness :
  hd [] ([] : list (list datum)) = [] /\
  print_table [] (text "log") =
  (Raises (Builtin IndexError), text "log" ++ no_datasets []).
Proof.
  split; [reflexivity|]. apply (print_table_empty (text "log") []). reflexivity.
Defined.

Ltac printable_cells :=
  unfold example_rows, example_header;
  repeat (apply Forall_cons; split); try (by apply Forall_nil);
  (eexists; split_and!;
    [vm_compute; reflexivity | reflexivity | by vm_compute]).

Lemma print_table_returns_witness :
  Forall (Forall printable) example_rows /\
  exists lines,
    print_table
      ([an_align Align.right; an_align Align.left; an_align Align.right]
       :: example_rows) [] =
      (Returns example_rows,
       [] ++ no_datasets
               ([an_align Align.right; an_align Align.left; an_align Align.right]
                :: example_rows)
       ++ [LF] ++ join lines) /\
    length lines = S (length example_rows).
Proof.
  assert (Forall (Forall printable) example_rows) as Hcells
    by printable_cells.
  split; [done|].
  apply (print_table_returns [] (an_align Align.right)
           [an_align Align.left; an_align Align.right] example_rows Hcells).
Defined.

Lemma print_table_widths_witness :
  Forall (Forall printable) example_rows /\
  Forall (fun r => length r = S (length [an_align Align.left; an_align Align.right]))
    ([an_align Align.right; an_align Align.left; an_align Align.right]
     :: example_rows) /\
  exists column_lengths lines,
    print_table
      ([an_align Align.right; an_align Align.left; an_align Align.right]
       :: example_rows) [] =
      (Returns example_rows,
       [] ++ no_datasets
               ([an_align Align.right; an_align Align.left; an_align Align.right]
                :: example_rows)
       ++ [LF] ++ join lines) /\
    Forall (fun r =>
      Forall2 (fun x w => length (str_text x) <= w)%nat r column_lengths)
      example_rows /\
    Forall (fun l => length l = table_width column_lengths) lines.
Proof.
  assert (Forall (fun r : list datum =>
            length r = S (length [an_align Align.left; an_align Align.right]))
            ([an_align Align.right; an_align Align.left; an_align Align.right]
             :: example_rows)) as Hrect.
  { repeat (apply Forall_cons; split; [reflexivity|]). constructor. }
  assert (Forall (Forall printable) example_rows) as Hcells
    by printable_cells.
  split; [done|]. split; [done|].
  apply (print_table_widths [] (an_align Align.right)
           [an_align Align.left; an_align Align.right] example_rows
           Hcells Hrect).
Defined.
